(** * Titan log-failure analysis scripts

    A shallow embedding of [packages/titan/analyze-failures.py] and
    [packages/titan/detailed-analysis.py], and the properties of their
    pattern counting, context windows, stack-frame parsing, de-duplicated
    summary and origin tally.

    Text is a list of characters; a character is a code point below 256.
    Python's [re] module is modelled by a backtracking matcher with the
    priorities of the real engine (alternatives left to right, greedy
    repetition longest first, lazy repetition shortest first), for the
    fragment of the pattern language that the two scripts use. *)

From Stdlib Require Import String Ascii.
From Stdlib Require Import List ZArith Lia Bool Arith PeanoNat.
From Stdlib Require Import Permutation Sorted.
From Stdlib Require Import Numbers.DecimalString.
Import ListNotations.

(** ** Text *)

Definition str := list ascii.

Definition lit (x : String.string) : str := String.list_ascii_of_string x.
Arguments lit x%_string.

Definition newline : ascii := "010"%char.

Definition code (c : ascii) : nat := nat_of_ascii c.

(** [c.lower()] on code points below 256: the ASCII capitals and the
    Latin-1 capitals (all of 0xC0..0xDE but the multiplication sign). *)
Definition lower (c : ascii) : ascii :=
  let n := code c in
  if ((65 <=? n) && (n <=? 90)) || ((192 <=? n) && (n <=? 222) && negb (n =? 215))
  then ascii_of_nat (n + 32) else c.

(** [\d] on code points below 256. *)
Definition is_digit (c : ascii) : bool :=
  let n := code c in (48 <=? n) && (n <=? 57).

(** [\s] on code points below 256: tab..carriage return, the four
    separators 0x1C..0x1F, space, next-line and no-break space. *)
Definition is_space (c : ascii) : bool :=
  let n := code c in
  ((9 <=? n) && (n <=? 13)) || ((28 <=? n) && (n <=? 32)) || (n =? 133) || (n =? 160).

(** [p in s] on strings. *)
Fixpoint starts_with (p s : str) : bool :=
  match p, s with
  | [], _ => true
  | _ :: _, [] => false
  | a :: p', b :: s' => Ascii.eqb a b && starts_with p' s'
  end.

Fixpoint contains (p s : str) : bool :=
  starts_with p s || match s with [] => false | _ :: t => contains p t end.

(** ** Patterns *)

(** One-character sets of the patterns in the scripts. *)
Inductive cset :=
| CChar (c : ascii)     (* a literal character *)
| CAny                  (* .      *)
| CDigit                (* \d     *)
| CNotSpace             (* [^\s]  *)
| CNot (c : ascii).     (* [^c]   *)

Inductive regex :=
| Eps
| Chr (cs : cset)
| Seq (r1 r2 : regex)
| Alt (r1 r2 : regex)
| Star (cs : cset)      (* cs*   greedy *)
| LazyStar (cs : cset)  (* cs*?  lazy   *)
| Group (r : regex).    (* ( r ) the capture group *)

Definition Plus (cs : cset) : regex := Seq (Chr cs) (Star cs).

Fixpoint Lit (w : str) : regex :=
  match w with
  | [] => Eps
  | [c] => Chr (CChar c)
  | c :: w' => Seq (Chr (CChar c)) (Lit w')
  end.

(** [ic] is the flag [re.IGNORECASE]. *)
Definition cset_match (ic : bool) (cs : cset) (c : ascii) : bool :=
  match cs with
  | CChar x => if ic then Ascii.eqb (lower c) (lower x) else Ascii.eqb c x
  | CAny => negb (Ascii.eqb c newline)
  | CDigit => is_digit c
  | CNotSpace => negb (is_space c)
  | CNot x => negb (if ic then Ascii.eqb (lower c) (lower x) else Ascii.eqb c x)
  end.

(** The text captured by the group, if the group took part in the match. *)
Definition cap := option str.

Section Matcher.
Context {A : Type}.
Variable ic : bool.

Fixpoint star_greedy (p : ascii -> bool) (s : str) (k : str -> option A) : option A :=
  match s with
  | c :: t =>
      if p c then
        match star_greedy p t k with
        | Some x => Some x
        | None => k s
        end
      else k s
  | [] => k s
  end.

Fixpoint star_lazy (p : ascii -> bool) (s : str) (k : str -> option A) : option A :=
  match k s with
  | Some x => Some x
  | None =>
      match s with
      | c :: t => if p c then star_lazy p t k else None
      | [] => None
      end
  end.

(** [rmatch r s g k]: match [r] at the head of [s], then run the
    continuation [k] on what is left; a failing continuation makes the
    matcher backtrack into [r]. *)
Fixpoint rmatch (r : regex) (s : str) (g : cap) (k : str -> cap -> option A) : option A :=
  match r with
  | Eps => k s g
  | Chr cs =>
      match s with
      | c :: t => if cset_match ic cs c then k t g else None
      | [] => None
      end
  | Seq r1 r2 => rmatch r1 s g (fun s1 g1 => rmatch r2 s1 g1 k)
  | Alt r1 r2 =>
      match rmatch r1 s g k with
      | Some x => Some x
      | None => rmatch r2 s g k
      end
  | Star cs => star_greedy (cset_match ic cs) s (fun s1 => k s1 g)
  | LazyStar cs => star_lazy (cset_match ic cs) s (fun s1 => k s1 g)
  | Group r1 =>
      rmatch r1 s g (fun s1 _ => k s1 (Some (firstn (length s - length s1) s)))
  end.
End Matcher.

(** A match at the head of [s]: the matched text and the capture.  With
    [must_advance] an empty match is refused and the matcher backtracks. *)
Definition match_at (must_advance ic : bool) (r : regex) (s : str) : option (str * cap) :=
  rmatch ic r s None
    (fun rest g =>
       if must_advance && (length rest =? length s) then None
       else Some (firstn (length s - length rest) s, g)).

(** A match object: where the match starts, its text ([group(0)]) and the
    capture ([group(1)]). *)
Record mobj := { m_start : nat; m_text : str; m_cap : cap }.

Definition group0 (m : mobj) : str := m_text m.

(** [group(1)]; every pattern of the scripts that has a group captures in
    each of its matches, so the default is never taken. *)
Definition group1 (m : mobj) : str :=
  match m_cap m with Some x => x | None => [] end.

(** [re.search]: the first position, left to right, with a match. *)
Fixpoint search_from (ic : bool) (r : regex) (pos : nat) (s : str) : option mobj :=
  match match_at false ic r s with
  | Some (m, g) => Some {| m_start := pos; m_text := m; m_cap := g |}
  | None =>
      match s with
      | [] => None
      | _ :: t => search_from ic r (S pos) t
      end
  end.

Definition re_search (ic : bool) (r : regex) (s : str) : option mobj :=
  search_from ic r 0 s.

(** The scan of [re.findall] / [re.finditer]: [skip] characters are still
    inside the previous match.  After an empty match the same position is
    tried once more for a non-empty one. *)
Fixpoint scan (ic : bool) (r : regex) (pos : nat) (s : str) (skip : nat) : list mobj :=
  let next k := match s with [] => [] | _ :: t => scan ic r (S pos) t k end in
  match skip with
  | S k => next k
  | O =>
      match match_at false ic r s with
      | None => next 0
      | Some (m, g) =>
          let here := {| m_start := pos; m_text := m; m_cap := g |} in
          match length m with
          | S k => here :: next k
          | O =>
              here ::
              match match_at true ic r s with
              | Some (m', g') =>
                  {| m_start := pos; m_text := m'; m_cap := g' |} :: next (pred (length m'))
              | None => next 0
              end
          end
      end
  end.

Fixpoint has_group (r : regex) : bool :=
  match r with
  | Group _ => true
  | Seq a b | Alt a b => has_group a || has_group b
  | _ => false
  end.

(** [re.findall]: the matched texts, or the captures when the pattern has
    a group. *)
Definition findall (ic : bool) (r : regex) (s : str) : list str :=
  map (if has_group r then group1 else group0) (scan ic r 0 s 0).

(** ** Python values used by the scripts *)

Definition str_eqb (a b : str) : bool :=
  if list_eq_dec ascii_dec a b then true else false.

(** [str(n)] for a non-negative integer. *)
Definition show_nat (n : nat) : str :=
  lit (NilEmpty.string_of_uint (Nat.to_uint n)).

(** [l[a:b]] with Python's treatment of negative and too large bounds. *)
Definition clamp_index (len i : Z) : Z :=
  if (i <? 0)%Z then Z.max 0 (i + len) else Z.min i len.

Definition py_slice {A} (l : list A) (a b : Z) : list A :=
  let len := Z.of_nat (length l) in
  let a' := clamp_index len a in
  let b' := clamp_index len b in
  firstn (Z.to_nat (b' - a')) (skipn (Z.to_nat a') l).

(** [f.readlines()] on the text of the file: the text is cut after every
    newline, and each line keeps its newline. *)
Fixpoint readlines (s : str) : list str :=
  match s with
  | [] => []
  | c :: t =>
      if Ascii.eqb c newline then [c] :: readlines t
      else
        match readlines t with
        | [] => [[c]]
        | l :: ls => (c :: l) :: ls
        end
  end.

(** [sorted(l, key=key)]: stable, ascending in the key. *)
Section Sorted.
Context {A : Type}.
Variable key : A -> Z.

Fixpoint insert_sorted (x : A) (l : list A) : list A :=
  match l with
  | [] => [x]
  | y :: l' => if (key y <? key x)%Z then y :: insert_sorted x l' else x :: l
  end.

Fixpoint sorted_asc (l : list A) : list A :=
  match l with
  | [] => []
  | x :: l' => insert_sorted x (sorted_asc l')
  end.

(** [sorted(l, key=key, reverse=reverse)]; with [reverse] the list is
    reversed, sorted and reversed again, which keeps equal keys in their
    original order. *)
Definition py_sorted (reverse : bool) (l : list A) : list A :=
  if reverse then rev (sorted_asc (rev l)) else sorted_asc l.
End Sorted.

(** A [dict] / [Counter] with string keys, as its items in insertion order. *)
Definition dict := list (str * nat).

Fixpoint counter_add (k : str) (d : dict) : dict :=
  match d with
  | [] => [(k, 1)]
  | (k', n) :: d' =>
      if str_eqb k k' then (k', S n) :: d' else (k', n) :: counter_add k d'
  end.

(** [Counter(l)] *)
Definition Counter (l : list str) : dict :=
  fold_left (fun d k => counter_add k d) l [].

(** [c.most_common(n)], that is [heapq.nlargest(n, c.items(), key=itemgetter(1))],
    which is [sorted(c.items(), key=itemgetter(1), reverse=True)[:n]]. *)
Definition most_common (n : nat) (c : dict) : dict :=
  firstn n (py_sorted (fun x => Z.of_nat (snd x)) true c).

(** [print(s)] for each string of [printed], in turn: the standard output
    receives the string and a line break. *)
Definition stdout (printed : list str) : str :=
  flat_map (fun s => s ++ [newline]) printed.

(** ** The patterns of the scripts *)

Declare Scope regex_scope.
Delimit Scope regex_scope with re.
Notation "a ;; b" := (Seq a b) (at level 61, right associativity) : regex_scope.
Notation "a || b" := (Alt a b) : regex_scope.

Definition phrase : str := lit "Connection configuration is required for undefined".

(* r'Connection configuration is required for undefined' *)
Definition re_db_config : regex := Lit phrase.
(* r'Redis connection error' *)
Definition re_redis : regex := Lit (lit "Redis connection error").
(* r'timed out|timeout' *)
Definition re_timeout : regex := (Lit (lit "timed out") || Lit (lit "timeout"))%re.
(* r'health check.*failed|health check timed out' *)
Definition re_health : regex :=
  ((Lit (lit "health check") ;; Star CAny ;; Lit (lit "failed"))
   || Lit (lit "health check timed out"))%re.
(* r'NOGROUP' *)
Definition re_nogroup : regex := Lit (lit "NOGROUP").
(* r'test/[^\s]+\.spec\.ts' *)
Definition re_test_file : regex :=
  (Lit (lit "test/") ;; Plus CNotSpace ;; Lit (lit ".spec.ts"))%re.
(* r'.*?\.ts:\d+:\d+', the group of the frame pattern *)
Definition re_call_site : regex :=
  (LazyStar CAny ;; Lit (lit ".ts:") ;; Plus CDigit ;; Chr (CChar ":") ;; Plus CDigit)%re.
(* r'at.*\((.*?\.ts:\d+:\d+)\)' *)
Definition re_frame : regex :=
  (Lit (lit "at") ;; Star CAny ;; Chr (CChar "(") ;; Group re_call_site ;; Chr (CChar ")"))%re.
(* r'test/[^\s]+\.spec\.ts:\d+' *)
Definition re_test_ref : regex :=
  (Lit (lit "test/") ;; Plus CNotSpace ;; Lit (lit ".spec.ts:") ;; Plus CDigit)%re.
(* r'at.*\(([^)]+\.ts):\d+:\d+\)' *)
Definition re_origin : regex :=
  (Lit (lit "at") ;; Star CAny ;; Chr (CChar "(")
   ;; Group (Plus (CNot ")") ;; Lit (lit ".ts"))
   ;; Chr (CChar ":") ;; Plus CDigit ;; Chr (CChar ":") ;; Plus CDigit ;; Chr (CChar ")"))%re.

(** ** analyze-failures.py *)

Module AnalyzeFailures.

(** A pattern rule of the [error_patterns] table: its name, its pattern and
    whether [re.IGNORECASE] is passed. *)
Record rule := { rule_name : str; rule_re : regex; rule_ic : bool }.

Definition rules : list rule :=
  [ {| rule_name := lit "Database Config Missing"; rule_re := re_db_config; rule_ic := false |};
    {| rule_name := lit "Redis Connection"; rule_re := re_redis; rule_ic := false |};
    {| rule_name := lit "Timeout"; rule_re := re_timeout; rule_ic := true |};
    {| rule_name := lit "Health Check Failed"; rule_re := re_health; rule_ic := true |};
    {| rule_name := lit "NOGROUP Error"; rule_re := re_nogroup; rule_ic := false |} ].

(** [len(re.findall(pattern, content, flags))] *)
Definition count_rule (content : str) (r : rule) : nat :=
  length (findall (rule_ic r) (rule_re r) content).

Definition error_patterns (content : str) : dict :=
  map (fun r => (rule_name r, count_rule content r)) rules.

Definition test_files (content : str) : list str :=
  findall false re_test_file content.

Definition test_file_counts (content : str) : dict :=
  Counter (test_files content).

(** The first loop: the items sorted by [-count], the positive ones printed. *)
Definition category_view (items : dict) : dict :=
  filter (fun x => 0 <? snd x)
         (py_sorted (fun x => (- Z.of_nat (snd x))%Z) false items).

Definition category_line (x : str * nat) : str :=
  fst x ++ lit ": " ++ show_nat (snd x) ++ lit " occurrences".

Definition mention_line (x : str * nat) : str :=
  fst x ++ lit ": " ++ show_nat (snd x) ++ lit " mentions".

Definition rule_line : str := repeat "="%char 50.

(** What the script prints, one string per call of [print]. *)
Definition report (content : str) : list str :=
  [lit "Error Pattern Analysis:"; rule_line]
  ++ map category_line (category_view (error_patterns content))
  ++ [newline :: lit "Most Mentioned Test Files:"; rule_line]
  ++ map mention_line (most_common 10 (test_file_counts content))
  ++ [newline :: lit "Total unique test files: "
        ++ show_nat (length (test_file_counts content))].

End AnalyzeFailures.

(** ** detailed-analysis.py *)

Module DetailedAnalysis.

Definition context_start (i : Z) : Z := Z.max 0 (i - 5).
Definition context_end (len i : Z) : Z := Z.min len (i + 10).

(** [''.join(lines[context_start:context_end])] *)
Definition context (lines : list str) (i : Z) : str :=
  concat (py_slice lines (context_start i) (context_end (Z.of_nat (length lines)) i)).

Definition unknown : str := lit "unknown".

(** [file_match.group(1) if file_match else 'unknown'] *)
Definition parse_file (ctx : str) : str :=
  match re_search false re_frame ctx with
  | Some m => group1 m
  | None => unknown
  end.

(** [test_match.group(0) if test_match else 'unknown'] *)
Definition parse_test (ctx : str) : str :=
  match re_search false re_test_ref ctx with
  | Some m => group0 m
  | None => unknown
  end.

Record err_info := { line_num : nat; file : str; test : str; snippet : str }.

Definition info (lines : list str) (i : nat) : err_info :=
  let ctx := context lines (Z.of_nat i) in
  {| line_num := i + 1;
     file := parse_file ctx;
     test := parse_test ctx;
     snippet := firstn 500 ctx |}.

(** The loop over [enumerate(lines)]; [rest] is what is still to visit,
    [i] the index of its head. *)
Fixpoint collect (lines rest : list str) (i : nat) : list err_info :=
  match rest with
  | [] => []
  | line :: rest' =>
      (if contains phrase line then [info lines i] else [])
      ++ collect lines rest' (S i)
  end.

Definition db_config_errors (lines : list str) : list err_info :=
  collect lines lines 0.

Definition key := (str * str)%type.

Definition err_key (e : err_info) : key := (file e, test e).

Definition key_eqb (a b : key) : bool :=
  str_eqb (fst a) (fst b) && str_eqb (snd a) (snd b).

(** [key in seen]; the set [seen] is kept as the list of its members, which
    the loop only extends with keys that are not in it. *)
Definition key_in (k : key) (seen : list key) : bool :=
  existsb (key_eqb k) seen.

(** The loop that prints the error locations: the entries it prints. *)
Fixpoint summary_loop (seen : list key) (errs : list err_info) : list err_info :=
  match errs with
  | [] => []
  | err :: rest =>
      let k := err_key err in
      if key_in k seen then summary_loop seen rest
      else
        let seen' := k :: seen in
        err :: (if 5 <=? length seen' then [] else summary_loop seen' rest)
  end.

(** [for err in db_config_errors[:20]: ...] *)
Definition summary (errs : list err_info) : list err_info :=
  summary_loop [] (py_slice errs 0 20).

Definition summary_lines (e : err_info) : list str :=
  [ newline :: lit "File: " ++ file e;
    lit "Test: " ++ test e;
    lit "Line: " ++ show_nat (line_num e) ].

Definition module_name : str := lit "database.manager.ts".
Definition marker : str := lit "parseConnectionConfig".

(** The inner loop of the origin analysis for one occurrence. *)
Definition origins_of (err : err_info) : list str :=
  filter (fun f => contains module_name f || contains marker (snippet err))
         (findall false re_origin (snippet err)).

Definition origin_files (errs : list err_info) : list str :=
  flat_map origins_of errs.

Definition origin_counter (errs : list err_info) : dict :=
  Counter (origin_files errs).

Definition origin_line (x : str * nat) : str :=
  fst x ++ lit ": " ++ show_nat (snd x) ++ lit " times".

(** What the script prints, one string per call of [print]. *)
Definition report (lines : list str) : list str :=
  let errs := db_config_errors lines in
  [lit "Database Config Error Locations:"; repeat "="%char 70]
  ++ flat_map summary_lines (summary errs)
  ++ [newline :: newline :: lit "Error Origin Analysis:"; repeat "="%char 70]
  ++ map origin_line (most_common 5 (origin_counter errs)).

(** The script on the text of its input file. *)
Definition main (content : str) : list str := report (readlines content).

End DetailedAnalysis.

(** * Vocabulary of the properties *)

Import DetailedAnalysis.
Import AnalyzeFailures.

(** ** The language of a pattern and the scan of a text *)

(** [Matches ic r m]: the text [m] is in the language of [r]. *)
Inductive Matches (ic : bool) : regex -> str -> Prop :=
| M_Eps : Matches ic Eps []
| M_Chr cs c : cset_match ic cs c = true -> Matches ic (Chr cs) [c]
| M_Seq r1 r2 m1 m2 :
    Matches ic r1 m1 -> Matches ic r2 m2 -> Matches ic (Seq r1 r2) (m1 ++ m2)
| M_AltL r1 r2 m : Matches ic r1 m -> Matches ic (Alt r1 r2) m
| M_AltR r1 r2 m : Matches ic r2 m -> Matches ic (Alt r1 r2) m
| M_Star cs m :
    Forall (fun c => cset_match ic cs c = true) m -> Matches ic (Star cs) m
| M_LazyStar cs m :
    Forall (fun c => cset_match ic cs c = true) m -> Matches ic (LazyStar cs) m
| M_Group r m : Matches ic r m -> Matches ic (Group r) m.

#[local] Hint Constructors Matches : core.

(** No match of [r] begins at the head of [s]. *)
Definition NoMatchAt (ic : bool) (r : regex) (s : str) : Prop :=
  forall m rest, s = m ++ rest -> ~ Matches ic r m.

(** No match of [r] begins anywhere in [s]. *)
Definition NoMatchIn (ic : bool) (r : regex) (s : str) : Prop :=
  forall p1 p2, s = p1 ++ p2 -> NoMatchAt ic r p2.

(** No match of [r] begins inside [pre] when [tail] follows it. *)
Definition NoMatchBefore (ic : bool) (r : regex) (pre tail : str) : Prop :=
  forall p1 p2, pre = p1 ++ p2 -> p2 <> [] -> NoMatchAt ic r (p2 ++ tail).

(** [Scanned ic r s ms]: [ms] are non-overlapping matches of [r] in [s],
    left to right, and no match begins at a skipped position. *)
Inductive Scanned (ic : bool) (r : regex) : str -> list str -> Prop :=
| Scanned_nil : Scanned ic r [] []
| Scanned_skip c t ms :
    NoMatchAt ic r (c :: t) -> Scanned ic r t ms -> Scanned ic r (c :: t) ms
| Scanned_match m rest ms :
    m <> [] -> Matches ic r m -> Scanned ic r rest ms ->
    Scanned ic r (m ++ rest) (m :: ms).

(** Whether the pattern can match the empty text. *)
Fixpoint nullable (r : regex) : bool :=
  match r with
  | Eps | Star _ | LazyStar _ => true
  | Chr _ => false
  | Seq a b => nullable a && nullable b
  | Alt a b => nullable a || nullable b
  | Group a => nullable a
  end.

(** ** Sorting, first occurrences, counters *)

(** The orders and the selection by key that the sorting lemmas speak of. *)
Definition key_le {A} (key : A -> Z) (a b : A) : Prop := (key a <= key b)%Z.

Definition key_ge {A} (key : A -> Z) (a b : A) : Prop := (key a >= key b)%Z.

Definition has_key {A} (key : A -> Z) (k : Z) (a : A) : bool := (key a =? k)%Z.

(** [y] has another key than [x]. *)
Definition other_key {A K} (key : A -> K) (eqb : K -> K -> bool) (x y : A) : bool :=
  negb (eqb (key x) (key y)).

(** The members of [l] that are the first with their key, in the order
    of [l]. *)
Fixpoint first_per_key {A K} (key : A -> K) (eqb : K -> K -> bool) (l : list A) : list A :=
  match l with
  | [] => []
  | x :: l' => x :: filter (other_key key eqb x) (first_per_key key eqb l')
  end.

(** The pair of [e] is not in [seen]. *)
Definition unseen (seen : list key) (e : err_info) : bool :=
  negb (key_in (err_key e) seen).

Definition str_dec : forall a b : str, {a = b} + {a <> b} := list_eq_dec ascii_dec.

(** [d[k]] for a [Counter]: 0 for a missing key. *)
Fixpoint dict_get (d : dict) (k : str) : nat :=
  match d with
  | [] => 0
  | (k', n) :: d' => if str_eqb k k' then n else dict_get d' k
  end.

(** [d.keys()] *)
Definition keys (d : dict) : list str := map fst d.

Definition mem (k : str) (l : list str) : bool := existsb (str_eqb k) l.

(** A string is its own key. *)
Definition same (x : str) : str := x.

Definition positive (x : str * nat) : bool := 0 <? snd x.
Definition with_count (c : nat) (x : str * nat) : bool := snd x =? c.
Definition count_ge (x y : str * nat) : Prop := snd x >= snd y.

(** ** The context window and the summary *)


(** The summary in the words of the specification: all occurrences in
    their order, the first of each (call site, test) pair kept, at most
    [cap] of them. *)
Definition summary_of_all (cap : nat) (errs : list err_info) : list err_info :=
  firstn cap (first_per_key err_key key_eqb errs).

(** A log with 21 occurrences: the first 20 have no frame in their window,
    the window of the last one reaches a frame. *)
Definition log_21_occurrences : list str :=
  repeat (phrase ++ [newline]) 21 ++ repeat [newline] 8
  ++ [lit "    at open (src/db.ts:1:2)"].

(** ** The report of analyze-failures.py *)

Definition spec_a : str := lit "test/a.spec.ts".
Definition spec_b : str := lit "test/b.spec.ts".

(** A log that mentions the first file three times and the second once. *)
Definition log_mentions : str :=
  lit "FAIL test/a.spec.ts
  at run (test/b.spec.ts:10:5)
FAIL test/a.spec.ts (2 s)
see test/a.spec.ts for details
".

(** The first rule of the table. *)
Definition db_rule : rule :=
  {| rule_name := lit "Database Config Missing"; rule_re := re_db_config; rule_ic := false |}.

(** The lines that the first loop of the script prints. *)
Definition category_report (content : str) : list str :=
  map category_line (category_view (error_patterns content)).

(** A log of 20 lines with the phrase in the line of index 10. *)
Definition log_20_lines : list str :=
  repeat (lit "ok
") 10
  ++ [lit "ERROR Connection configuration is required for undefined
"]
  ++ repeat (lit "ok
") 9.

(** ** Frames and origins *)

(** The text of a frame: [at], a run on one line, and a call site in
    parentheses. *)
Definition frame_text (mid g : str) : str :=
  lit "at" ++ mid ++ ["("%char] ++ g ++ [")"%char].

(** [FrameAt ctx n g]: a frame of [ctx] has the call site [g] at offset [n]. *)
Definition FrameAt (ctx : str) (n : nat) (g : str) : Prop :=
  exists pre mid post,
    ctx = pre ++ frame_text mid g ++ post
    /\ Matches false (Star CAny) mid
    /\ Matches false re_call_site g
    /\ n = length pre + 2 + length mid + 1.

(** C5, as stated: the call site that the parser returns is a frame of the
    text that no other frame precedes. *)
Definition returns_first_call_site (ctx : str) : Prop :=
  forall n g, FrameAt ctx n g ->
    exists n0, FrameAt ctx n0 (parse_file ctx) /\ n0 <= n.

(** Two frames on one line. *)
Definition two_frames_on_a_line : str := lit "at f (a.ts:1:2) at g (b.ts:3:4)".

(** The text of a frame as the origin pattern sees it: the path, the line
    and the column. *)
Definition origin_text (mid path line col : str) : str :=
  lit "at" ++ mid ++ ["("%char] ++ path ++ [":"%char] ++ line ++ [":"%char] ++ col
  ++ [")"%char].

(* r'[^)]+\.ts', the group of the origin pattern *)
Definition re_path : regex := (Plus (CNot ")") ;; Lit (lit ".ts"))%re.

(** C6, as stated: an occurrence whose call-site reference holds the module
    name, or whose snippet holds the marker, has its call-site reference in
    the tally. *)
Definition tallies_suspects (errs : list err_info) : Prop :=
  forall e, In e errs ->
    contains module_name (file e) = true \/ contains marker (snippet e) = true ->
    0 < dict_get (origin_counter errs) (file e).

(** A log whose window begins with five long lines: the snippet is cut
    before the frame. *)
Definition log_long_lines : list str :=
  repeat (repeat "x"%char 100 ++ [newline]) 5
  ++ [phrase ++ [newline];
      lit "    at parseConfig (src/database.manager.ts:10:5)
"].

(** A log with one occurrence and one frame, inside the snippet. *)
Definition log_one_frame : list str :=
  [phrase ++ [newline];
   lit "    at parseConfig (src/database.manager.ts:10:5)
"].

(** ** Lines *)

(** The number of lines of a text whose lines all end with a line break. *)
Definition line_count (out : str) : nat := count_occ ascii_dec out newline.

(** Every one-character set of the pattern refuses the newline, so that no
    match of the pattern holds one. *)
Fixpoint newline_free (ic : bool) (r : regex) : bool :=
  match r with
  | Eps => true
  | Chr cs | Star cs | LazyStar cs => negb (cset_match ic cs newline)
  | Seq a b | Alt a b => newline_free ic a && newline_free ic b
  | Group a => newline_free ic a
  end.

(** A line that ends with its newline and holds no other. *)
Definition full_line (l : str) : Prop :=
  exists a, l = a ++ [newline] /\ ~ In newline a.

(** ** Sizes *)

(** The length of the shortest text of the language. *)
Fixpoint min_len (r : regex) : nat :=
  match r with
  | Eps | Star _ | LazyStar _ => 0
  | Chr _ => 1
  | Seq a b => min_len a + min_len b
  | Alt a b => Nat.min (min_len a) (min_len b)
  | Group a => min_len a
  end.

(** What analyze-failures.py prints for a log in which nothing is found. *)
Definition quiet_report : list str :=
  [ lit "Error Pattern Analysis:"; rule_line;
    newline :: lit "Most Mentioned Test Files:"; rule_line;
    newline :: lit "Total unique test files: 0" ].

(** ** Changes of case *)

(** The ASCII capital letters put in lower case; every other character is
    kept. *)
Definition ascii_lower (c : ascii) : ascii :=
  let n := code c in
  if (65 <=? n) && (n <=? 90) then ascii_of_nat (n + 32) else c.

(** A match object with its texts recased by [f]. *)
Definition recase_mobj (f : ascii -> ascii) (m : mobj) : mobj :=
  {| m_start := m_start m;
     m_text := map f (m_text m);
     m_cap := option_map (map f) (m_cap m) |}.

(** What detailed-analysis.py prints for a log without the phrase. *)
Definition quiet_locations : list str :=
  [ lit "Database Config Error Locations:"; repeat "="%char 70;
    newline :: newline :: lit "Error Origin Analysis:"; repeat "="%char 70 ].

(** * Properties *)

(** ** The model on small inputs *)

Example findall_timeout :
  findall true re_timeout (lit "Timed Out and TIMEOUT timeout timed  out")
  = [lit "Timed Out"; lit "TIMEOUT"; lit "timeout"].
Proof. reflexivity. Qed.

Example findall_health :
  findall true re_health (lit "Health check xx failed failed
health check timed out")
  = [lit "Health check xx failed failed"; lit "health check timed out"].
Proof. reflexivity. Qed.

(** A greedy run swallows a second reference that follows without a space. *)
Example findall_test_file :
  findall false re_test_file
    (lit "see test/a.spec.ts and test/b.spec.ts:10:5 test/a.spec.ts,test/c.spec.ts x")
  = [lit "test/a.spec.ts"; lit "test/b.spec.ts"; lit "test/a.spec.ts,test/c.spec.ts"].
Proof. reflexivity. Qed.

Example findall_origin :
  findall false re_origin (lit "  at f (a.ts:1:2) at g (b.ts:3:4)
 at h (src/database.manager.ts:33:4)")
  = [lit "b.ts"; lit "src/database.manager.ts"].
Proof. reflexivity. Qed.

(** Empty matches: [re.findall('a*', 'baac')] and [re.findall('|a', 'a')]. *)
Example findall_empty_matches :
  findall false (Star (CChar "a")) (lit "baac") = [[]; lit "aa"; []; []]
  /\ findall false (Alt Eps (Chr (CChar "a"))) (lit "a") = [[]; lit "a"; []].
Proof. split; reflexivity. Qed.

Example search_frames_on_two_lines :
  parse_file (lit "  at f (a.ts:1:2)
 at g (b.ts:3:4)") = lit "a.ts:1:2".
Proof. reflexivity. Qed.

Example search_test_ref :
  parse_test (lit "  at f (test/x/a.spec.ts:12:2) ") = lit "test/x/a.spec.ts:12".
Proof. reflexivity. Qed.

Example slices :
  py_slice [0; 1; 2; 3; 4] 0 (-1) = [0; 1; 2; 3]
  /\ py_slice [0; 1; 2; 3; 4] 3 2 = []
  /\ py_slice [0; 1; 2; 3; 4] (-2) 40 = [3; 4].
Proof. repeat split; reflexivity. Qed.

(** Equal counts stay in first-seen order. *)
Example most_common_ties :
  most_common 2 (Counter [lit "b"; lit "a"; lit "a"; lit "c"; lit "b"])
  = [(lit "b", 2); (lit "a", 2)].
Proof. reflexivity. Qed.

Example report_of_a_small_log :
  AnalyzeFailures.report
    (lit "Connection configuration is required for undefined
NOGROUP NOGROUP test/a.spec.ts timeout
test/b.spec.ts test/a.spec.ts Timed out TIMEOUT")
  = [ lit "Error Pattern Analysis:"; rule_line;
      lit "Timeout: 3 occurrences";
      lit "NOGROUP Error: 2 occurrences";
      lit "Database Config Missing: 1 occurrences";
      newline :: lit "Most Mentioned Test Files:"; rule_line;
      lit "test/a.spec.ts: 2 mentions";
      lit "test/b.spec.ts: 1 mentions";
      newline :: lit "Total unique test files: 2" ].
Proof. reflexivity. Qed.

(** ** Strings *)

Lemma str_eqb_eq (a b : str) : str_eqb a b = true <-> a = b.
Proof.
  unfold str_eqb. destruct (list_eq_dec ascii_dec a b); split; congruence.
Qed.

Lemma str_eqb_refl (a : str) : str_eqb a a = true.
Proof. now apply str_eqb_eq. Qed.

Lemma str_eqb_neq (a b : str) : str_eqb a b = false <-> a <> b.
Proof.
  unfold str_eqb. destruct (list_eq_dec ascii_dec a b); split; congruence.
Qed.

Lemma starts_with_spec (p s : str) :
  starts_with p s = true <-> exists t, s = p ++ t.
Proof.
  revert s. induction p as [|a p IH]; intros s; simpl.
  - split; eauto.
  - destruct s as [|b s].
    + split; [discriminate | intros [t H]; discriminate].
    + rewrite andb_true_iff, Ascii.eqb_eq, IH. split.
      * intros [-> [t ->]]. now exists t.
      * intros [t H]. injection H as -> ->. eauto.
Qed.

(** [contains p s] says that [p] is a substring of [s]. *)
Lemma contains_spec (p s : str) :
  contains p s = true <-> exists a b, s = a ++ p ++ b.
Proof.
  induction s as [|c s IH]; simpl.
  - rewrite orb_false_r, starts_with_spec. split.
    + intros [t H]. now exists [], t.
    + intros [a [b H]]. destruct a; simpl in H.
      * now exists b.
      * discriminate.
  - rewrite orb_true_iff, starts_with_spec, IH. split.
    + intros [[t H] | [a [b H]]].
      * now exists [], t.
      * exists (c :: a), b. simpl. now rewrite H.
    + intros [a [b H]]. destruct a as [|c' a]; simpl in H.
      * left. now exists b.
      * right. injection H as _ H. now exists a, b.
Qed.

(** ** The matcher against the language of a pattern *)

Section MatcherFacts.
Context {A : Type}.
Variable ic : bool.

Lemma star_greedy_sound (p : ascii -> bool) s (k : str -> option A) x :
  star_greedy p s k = Some x ->
  exists m s1, s = m ++ s1 /\ Forall (fun c => p c = true) m /\ k s1 = Some x.
Proof.
  induction s as [|c s IH]; simpl; intros H.
  - now exists [], [].
  - destruct (p c) eqn:Hp.
    + destruct (star_greedy p s k) eqn:Hs.
      * injection H as ->. destruct (IH eq_refl) as (m & s1 & -> & Hm & Hk).
        exists (c :: m), s1. auto.
      * now exists [], (c :: s).
    + now exists [], (c :: s).
Qed.

Lemma star_greedy_complete (p : ascii -> bool) s (k : str -> option A) :
  star_greedy p s k = None ->
  forall m s1, s = m ++ s1 -> Forall (fun c => p c = true) m -> k s1 = None.
Proof.
  induction s as [|c s IH]; simpl; intros H m s1 E Hm.
  - symmetry in E. apply app_eq_nil in E as [-> ->]. exact H.
  - destruct m as [|c' m]; simpl in E.
    + subst s1. destruct (p c); [destruct (star_greedy p s k)|]; congruence.
    + injection E as <- ->. inversion Hm as [|? ? Hc Hm']; subst.
      rewrite Hc in H. destruct (star_greedy p (m ++ s1) k) eqn:Hs; [discriminate|].
      now apply (IH eq_refl m s1).
Qed.

Lemma star_lazy_sound (p : ascii -> bool) s (k : str -> option A) x :
  star_lazy p s k = Some x ->
  exists m s1, s = m ++ s1 /\ Forall (fun c => p c = true) m /\ k s1 = Some x.
Proof.
  induction s as [|c s IH]; simpl; intros H.
  - destruct (k []) eqn:Hk; [|discriminate]. injection H as ->. now exists [], [].
  - destruct (k (c :: s)) eqn:Hk.
    + injection H as ->. now exists [], (c :: s).
    + destruct (p c) eqn:Hp; [|discriminate].
      destruct (IH H) as (m & s1 & -> & Hm & Hk').
      exists (c :: m), s1. auto.
Qed.

Lemma star_lazy_complete (p : ascii -> bool) s (k : str -> option A) :
  star_lazy p s k = None ->
  forall m s1, s = m ++ s1 -> Forall (fun c => p c = true) m -> k s1 = None.
Proof.
  induction s as [|c s IH]; simpl; intros H m s1 E Hm.
  - symmetry in E. apply app_eq_nil in E as [-> ->].
    destruct (k []); congruence.
  - destruct (k (c :: s)) eqn:Hk; [discriminate|].
    destruct m as [|c' m]; simpl in E.
    + now subst s1.
    + injection E as <- ->. inversion Hm as [|? ? Hc Hm']; subst.
      rewrite Hc in H. now apply (IH H m s1).
Qed.

(** Soundness: a successful run consumed a text of the language and its
    continuation succeeded on the rest. *)
Lemma rmatch_sound r : forall s g (k : str -> cap -> option A) x,
  rmatch ic r s g k = Some x ->
  exists m s1 g1, s = m ++ s1 /\ Matches ic r m /\ k s1 g1 = Some x.
Proof.
  induction r as [|cs|r1 IH1 r2 IH2|r1 IH1 r2 IH2|cs|cs|r IH]; simpl; intros s g k x H.
  - exists [], s, g. auto.
  - destruct s as [|c t]; [discriminate|].
    destruct (cset_match ic cs c) eqn:Hc; [|discriminate].
    exists [c], t, g. auto.
  - apply IH1 in H as (m1 & s1 & g1 & -> & H1 & H).
    apply IH2 in H as (m2 & s2 & g2 & -> & H2 & H).
    exists (m1 ++ m2), s2, g2. rewrite <- app_assoc. auto.
  - destruct (rmatch ic r1 s g k) eqn:E.
    + injection H as ->. apply IH1 in E as (m & s1 & g1 & -> & H1 & H). eauto 8.
    + apply IH2 in H as (m & s1 & g1 & -> & H1 & H). eauto 8.
  - apply star_greedy_sound in H as (m & s1 & -> & Hm & H). eauto 8.
  - apply star_lazy_sound in H as (m & s1 & -> & Hm & H). eauto 8.
  - apply IH in H as (m & s1 & g1 & -> & H1 & H). eauto 8.
Qed.

(** Completeness: when the run fails, the continuation fails after every
    text of the language at the head of the input. *)
Lemma rmatch_complete r : forall s g (k : str -> cap -> option A),
  rmatch ic r s g k = None ->
  forall m s1, s = m ++ s1 -> Matches ic r m -> exists g1, k s1 g1 = None.
Proof.
  induction r as [|cs|r1 IH1 r2 IH2|r1 IH1 r2 IH2|cs|cs|r IH]; simpl;
    intros s g k H m s1 E Hm; inversion Hm; subst.
  - now exists g.
  - simpl in H. rewrite H1 in H. now exists g.
  - rewrite <- app_assoc in H.
    destruct (IH1 _ _ _ H _ _ eq_refl H2) as [g1 H'].
    now apply (IH2 _ _ _ H' _ _ eq_refl).
  - destruct (rmatch ic r1 (m ++ s1) g k) eqn:E1; [discriminate|].
    now apply (IH1 _ _ _ E1 _ _ eq_refl).
  - destruct (rmatch ic r1 (m ++ s1) g k) eqn:E1; [discriminate|].
    now apply (IH2 _ _ _ H _ _ eq_refl).
  - exists g. exact (@star_greedy_complete _ _ _ H m s1 eq_refl H1).
  - exists g. exact (@star_lazy_complete _ _ _ H m s1 eq_refl H1).
  - destruct (IH _ _ _ H _ _ eq_refl H1) as [g1 H']. eauto.
Qed.

(** What the continuation of a group receives is the text of the group. *)
Lemma rmatch_group_sound r s g (k : str -> cap -> option A) x :
  rmatch ic (Group r) s g k = Some x ->
  exists m s1, s = m ++ s1 /\ Matches ic r m /\ k s1 (Some m) = Some x.
Proof.
  simpl. intros H. apply rmatch_sound in H as (m & s1 & g1 & -> & Hm & H).
  exists m, s1. repeat split; auto.
  rewrite length_app, Nat.add_sub, firstn_app, Nat.sub_diag, firstn_all in H.
  simpl in H. now rewrite app_nil_r in H.
Qed.
End MatcherFacts.

Lemma firstn_consumed (m s1 : str) :
  firstn (length (m ++ s1) - length s1) (m ++ s1) = m.
Proof.
  rewrite length_app, Nat.add_sub, firstn_app, Nat.sub_diag, firstn_all.
  simpl. apply app_nil_r.
Qed.

Lemma match_at_sound ma ic r s m g :
  match_at ma ic r s = Some (m, g) ->
  exists rest, s = m ++ rest /\ Matches ic r m /\ (ma = true -> m <> []).
Proof.
  unfold match_at. intros H.
  apply rmatch_sound in H as (m0 & s1 & g1 & -> & Hm & H).
  rewrite firstn_consumed in H.
  destruct (ma && (length s1 =? length (m0 ++ s1))) eqn:E; [discriminate|].
  injection H as <- <-. exists s1. repeat split; auto.
  intros -> ->. simpl in E. now rewrite Nat.eqb_refl in E.
Qed.

Lemma match_at_none ic r s : match_at false ic r s = None -> NoMatchAt ic r s.
Proof.
  unfold match_at. intros H m rest E Hm.
  destruct (rmatch_complete _ _ _ _ _ H _ _ E Hm) as [g1 H']. discriminate.
Qed.

Lemma match_at_advance_none ic r s :
  match_at true ic r s = None ->
  forall m rest, s = m ++ rest -> Matches ic r m -> m = [].
Proof.
  unfold match_at. intros H m rest E Hm.
  destruct (rmatch_complete _ _ _ _ _ H _ _ E Hm) as [g1 H'].
  simpl in H'. destruct (length rest =? length s) eqn:El; [|discriminate].
  apply Nat.eqb_eq in El. subst s. rewrite length_app in El.
  destruct m; [reflexivity | simpl in El; lia].
Qed.

(** [re.search] returns the leftmost match. *)
Lemma search_from_sound ic r : forall s pos mo,
  search_from ic r pos s = Some mo ->
  exists pre rest,
    s = pre ++ m_text mo ++ rest /\
    m_start mo = pos + length pre /\
    Matches ic r (m_text mo) /\
    NoMatchBefore ic r pre (m_text mo ++ rest) /\
    match_at false ic r (m_text mo ++ rest) = Some (m_text mo, m_cap mo).
Proof.
  induction s as [|c s IH]; intros pos mo; simpl.
  - destruct (match_at false ic r []) as [[m g]|] eqn:E; [|discriminate].
    intros H. injection H as <-. simpl.
    destruct (match_at_sound _ _ _ _ _ _ E) as (rest & Hs & Hm & _).
    exists [], rest. simpl. rewrite <- Hs. repeat split; auto.
    intros p1 p2 Hp. symmetry in Hp. apply app_eq_nil in Hp as [_ ->]. congruence.
  - destruct (match_at false ic r (c :: s)) as [[m g]|] eqn:E.
    + intros H. injection H as <-. simpl.
      destruct (match_at_sound _ _ _ _ _ _ E) as (rest & Hs & Hm & _).
      exists [], rest. simpl. rewrite <- Hs. repeat split; auto.
      intros p1 p2 Hp. symmetry in Hp. apply app_eq_nil in Hp as [_ ->]. congruence.
    + intros H. apply IH in H as (pre & rest & -> & Hpos & Hm & Hno & Hat).
      exists (c :: pre), rest. simpl. repeat split; auto; try lia.
      intros p1 p2 Hp Hne. destruct p1 as [|c' p1]; simpl in Hp.
      * subst p2. simpl. now apply match_at_none.
      * injection Hp as _ ->. now apply (Hno p1 p2).
Qed.

Lemma search_from_none ic r : forall s pos,
  search_from ic r pos s = None -> NoMatchIn ic r s.
Proof.
  induction s as [|c s IH]; intros pos; simpl.
  - destruct (match_at false ic r []) as [[m g]|] eqn:E; [discriminate|].
    intros _ p1 p2 Hp. symmetry in Hp. apply app_eq_nil in Hp as [_ ->].
    now apply match_at_none.
  - destruct (match_at false ic r (c :: s)) as [[m g]|] eqn:E; [discriminate|].
    intros H p1 p2 Hp. destruct p1 as [|c' p1]; simpl in Hp.
    + subst p2. now apply match_at_none.
    + injection Hp as _ ->. now apply (IH _ H p1 p2).
Qed.

(** A match somewhere makes [re.search] succeed. *)
Lemma search_from_some ic r s pos pre m rest :
  s = pre ++ m ++ rest -> Matches ic r m -> search_from ic r pos s <> None.
Proof.
  intros Hs Hm H. apply search_from_none in H.
  exact (H pre (m ++ rest) Hs m rest eq_refl Hm).
Qed.

(** *** The scan of [re.findall] *)

Lemma scan_eq ic r pos s skip :
  scan ic r pos s skip =
  let next k := match s with [] => [] | _ :: t => scan ic r (S pos) t k end in
  match skip with
  | S k => next k
  | O =>
      match match_at false ic r s with
      | None => next 0
      | Some (m, g) =>
          let here := {| m_start := pos; m_text := m; m_cap := g |} in
          match length m with
          | S k => here :: next k
          | O =>
              here ::
              match match_at true ic r s with
              | Some (m', g') =>
                  {| m_start := pos; m_text := m'; m_cap := g' |} :: next (pred (length m'))
              | None => next 0
              end
          end
      end
  end.
Proof. destruct s; reflexivity. Qed.

Lemma scan_skip ic r : forall skip s pos,
  skip <= length s ->
  scan ic r pos s skip = scan ic r (pos + skip) (skipn skip s) 0.
Proof.
  induction skip as [|k IH]; intros s pos Hle.
  - simpl. now rewrite Nat.add_0_r.
  - destruct s as [|c t]; simpl in Hle; [lia|].
    simpl. rewrite IH by lia. f_equal. lia.
Qed.

Lemma scan_Scanned ic r :
  ~ Matches ic r [] ->
  forall n s pos, length s <= n -> Scanned ic r s (map group0 (scan ic r pos s 0)).
Proof.
  intros Hnn. induction n as [|n IH]; intros s pos Hlen; rewrite scan_eq; simpl.
  - destruct s; [|simpl in Hlen; lia].
    destruct (match_at false ic r []) as [[m g]|] eqn:E; [|constructor].
    destruct (match_at_sound _ _ _ _ _ _ E) as (rest & Hs & Hm & _).
    symmetry in Hs. apply app_eq_nil in Hs as [-> _]. contradiction.
  - destruct (match_at false ic r s) as [[m g]|] eqn:E.
    + destruct (match_at_sound _ _ _ _ _ _ E) as (rest & -> & Hm & _).
      destruct m as [|c m]; [contradiction|]. simpl.
      rewrite scan_skip by (rewrite length_app; lia).
      rewrite skipn_app, skipn_all, Nat.sub_diag. simpl.
      apply (Scanned_match ic r (c :: m) rest); [discriminate | assumption |].
      apply IH. simpl in Hlen. rewrite length_app in Hlen. lia.
    + destruct s as [|c t]; [constructor|].
      apply Scanned_skip; [now apply match_at_none|].
      apply IH. simpl in Hlen. lia.
Qed.

(** The texts that [re.findall] returns for a pattern without a group form
    a left-to-right scan of non-overlapping matches. *)
Lemma findall_Scanned ic r s :
  has_group r = false -> ~ Matches ic r [] -> Scanned ic r s (findall ic r s).
Proof.
  intros Hg Hnn. unfold findall. rewrite Hg.
  now apply (scan_Scanned ic r Hnn (length s)).
Qed.

Lemma NoMatchIn_tail ic r c s : NoMatchIn ic r (c :: s) -> NoMatchIn ic r s.
Proof. intros H p1 p2 E. apply (H (c :: p1) p2). simpl. now rewrite E. Qed.

Lemma scan_nomatch ic r : forall s pos, NoMatchIn ic r s -> scan ic r pos s 0 = [].
Proof.
  induction s as [|c s IH]; intros pos H; rewrite scan_eq; simpl.
  - destruct (match_at false ic r []) as [[m g]|] eqn:E; [|reflexivity].
    destruct (match_at_sound _ _ _ _ _ _ E) as (rest & Hs & Hm & _).
    destruct (H [] [] eq_refl m rest Hs Hm).
  - destruct (match_at false ic r (c :: s)) as [[m g]|] eqn:E.
    + destruct (match_at_sound _ _ _ _ _ _ E) as (rest & Hs & Hm & _).
      destruct (H [] (c :: s) eq_refl m rest Hs Hm).
    + apply IH. now apply NoMatchIn_tail with c.
Qed.

(** The members of a scan are non-empty texts of the language. *)
Lemma Scanned_matches ic r s ms :
  Scanned ic r s ms -> Forall (fun m => m <> [] /\ Matches ic r m) ms.
Proof. induction 1; auto. Qed.

(** A text in which no match begins is scanned to nothing. *)
Lemma Scanned_nomatch ic r s ms :
  Scanned ic r s ms -> NoMatchIn ic r s -> ms = [].
Proof.
  induction 1 as [|c t ms Hno Hs IH|m rest ms Hne Hm Hs IH]; intros H.
  - reflexivity.
  - apply IH. now apply NoMatchIn_tail with c.
  - destruct (H [] (m ++ rest) eq_refl m rest eq_refl Hm).
Qed.

(** *** Facts about particular patterns *)

Lemma nullable_sound ic r m : Matches ic r m -> m = [] -> nullable r = true.
Proof.
  induction 1; simpl; intros E; try reflexivity; try discriminate; auto.
  - apply app_eq_nil in E as [-> ->]. now rewrite IHMatches1, IHMatches2.
  - now rewrite IHMatches.
  - rewrite IHMatches by assumption. apply orb_true_r.
Qed.

Lemma not_nullable ic r : nullable r = false -> ~ Matches ic r [].
Proof.
  intros H Hm. apply nullable_sound with (m := []) in Hm; congruence.
Qed.

(** A literal pattern, matched case-sensitively, matches its text only. *)
Lemma Matches_Lit w : forall m, Matches false (Lit w) m <-> m = w.
Proof.
  induction w as [|c w IH]; intros m.
  - simpl. split; [now inversion 1 | intros ->; constructor].
  - destruct w as [|c' w].
    + simpl. split.
      * inversion 1; subst. simpl in *. apply Ascii.eqb_eq in H1. now subst.
      * intros ->. constructor. simpl. apply Ascii.eqb_refl.
    + change (Lit (c :: c' :: w)) with (Seq (Chr (CChar c)) (Lit (c' :: w))). split.
      * inversion 1; subst. inversion H2; subst. simpl in *.
        apply Ascii.eqb_eq in H1. apply IH in H4. now subst.
      * intros ->. apply (M_Seq false _ _ [c] (c' :: w)).
        -- constructor. simpl. apply Ascii.eqb_refl.
        -- now apply IH.
Qed.

(** With [re.IGNORECASE] a one-character set sees the folded character only. *)
Lemma lower_newline c : Ascii.eqb (lower c) newline = Ascii.eqb c newline.
Proof. destruct c as [[] [] [] [] [] [] [] []]; reflexivity. Qed.

Lemma lower_digit c : is_digit (lower c) = is_digit c.
Proof. destruct c as [[] [] [] [] [] [] [] []]; reflexivity. Qed.

Lemma lower_space c : is_space (lower c) = is_space c.
Proof. destruct c as [[] [] [] [] [] [] [] []]; reflexivity. Qed.

Lemma cset_match_fold cs c c' :
  lower c = lower c' -> cset_match true cs c = cset_match true cs c'.
Proof.
  intros E. destruct cs; simpl.
  - now rewrite E.
  - now rewrite <- (lower_newline c), <- (lower_newline c'), E.
  - now rewrite <- (lower_digit c), <- (lower_digit c'), E.
  - now rewrite <- (lower_space c), <- (lower_space c'), E.
  - now rewrite E.
Qed.

Lemma Forall_fold (P : ascii -> bool) :
  (forall c c', lower c = lower c' -> P c = P c') ->
  forall m m', map lower m = map lower m' ->
  Forall (fun c => P c = true) m -> Forall (fun c => P c = true) m'.
Proof.
  intros HP. induction m as [|c m IH]; intros [|c' m'] E H; try discriminate.
  - constructor.
  - injection E as Ec Em. inversion H; subst. constructor.
    + now rewrite <- (HP c c' Ec).
    + now apply IH.
Qed.

(** Under [re.IGNORECASE] the language of a pattern is closed under changes
    of case. *)
Lemma Matches_fold r m :
  Matches true r m -> forall m', map lower m = map lower m' -> Matches true r m'.
Proof.
  induction 1 as [|cs c Hc|r1 r2 m1 m2 H1 IH1 H2 IH2|r1 r2 m H IH|r1 r2 m H IH
                  |cs m H|cs m H|r m H IH]; intros m' E.
  - destruct m'; [constructor | discriminate].
  - destruct m' as [|c' [|]]; try discriminate. injection E as E.
    constructor. now rewrite <- (cset_match_fold cs c c' E).
  - rewrite map_app in E.
    assert (Hsplit : m' = firstn (length m1) m' ++ skipn (length m1) m')
      by (symmetry; apply firstn_skipn).
    assert (E1 : map lower m1 = map lower (firstn (length m1) m')).
    { rewrite <- firstn_map, <- E, firstn_app, length_map, Nat.sub_diag.
      simpl. rewrite app_nil_r. rewrite <- (length_map lower m1) at 1.
      now rewrite firstn_all. }
    assert (E2 : map lower m2 = map lower (skipn (length m1) m')).
    { rewrite <- skipn_map, <- E, skipn_app, length_map, Nat.sub_diag.
      simpl. rewrite <- (length_map lower m1) at 1. now rewrite skipn_all. }
    rewrite Hsplit. constructor; auto.
  - apply M_AltL; auto.
  - apply M_AltR; auto.
  - constructor. eapply Forall_fold; eauto. intros; now apply cset_match_fold.
  - constructor. eapply Forall_fold; eauto. intros; now apply cset_match_fold.
  - constructor; auto.
Qed.

(** ** Lists *)

Lemma In_firstn {A} (x : A) : forall n l, In x (firstn n l) -> In x l.
Proof.
  induction n as [|n IH]; intros [|y l]; simpl; try tauto.
  intros [H | H]; auto.
Qed.

(** ** Sorting *)

Section SortedFacts.
Context {A : Type}.
Variable key : A -> Z.

Lemma insert_sorted_perm x l : Permutation (insert_sorted key x l) (x :: l).
Proof.
  induction l as [|y l IH]; simpl.
  - apply Permutation_refl.
  - destruct (key y <? key x)%Z.
    + rewrite IH. apply perm_swap.
    + apply Permutation_refl.
Qed.

Lemma sorted_asc_perm l : Permutation (sorted_asc key l) l.
Proof.
  induction l as [|x l IH]; simpl.
  - constructor.
  - rewrite insert_sorted_perm. now constructor.
Qed.

Lemma insert_sorted_sorted x l :
  StronglySorted (key_le key) l -> StronglySorted (key_le key) (insert_sorted key x l).
Proof.
  induction 1 as [|y l Hs IH Hy]; simpl.
  - repeat constructor.
  - destruct (key y <? key x)%Z eqn:E.
    + constructor; [assumption|].
      apply Forall_forall. intros z Hz.
      apply (Permutation_in _ (insert_sorted_perm x l)) in Hz as [<- | Hz].
      * unfold key_le. lia.
      * now apply (proj1 (Forall_forall _ _) Hy).
    + constructor; [now constructor|].
      constructor; [unfold key_le; lia|].
      apply Forall_forall. intros z Hz.
      apply (proj1 (Forall_forall _ _) Hy) in Hz. unfold key_le in *. lia.
Qed.

Lemma sorted_asc_sorted l : StronglySorted (key_le key) (sorted_asc key l).
Proof.
  induction l as [|x l IH]; simpl.
  - constructor.
  - now apply insert_sorted_sorted.
Qed.

(** Stability: the members with one key keep their order. *)
Lemma insert_sorted_stable k x l :
  filter (has_key key k) (insert_sorted key x l) = filter (has_key key k) (x :: l).
Proof.
  induction l as [|y l IH]; simpl.
  - reflexivity.
  - destruct (key y <? key x)%Z eqn:E; simpl.
    + rewrite IH. simpl. unfold has_key.
      destruct (key x =? k)%Z eqn:Ex, (key y =? k)%Z eqn:Ey; try reflexivity. lia.
    + reflexivity.
Qed.

Lemma sorted_asc_stable k l :
  filter (has_key key k) (sorted_asc key l) = filter (has_key key k) l.
Proof.
  induction l as [|x l IH]; simpl.
  - reflexivity.
  - rewrite insert_sorted_stable. simpl. now rewrite IH.
Qed.

Lemma StronglySorted_snoc (R : A -> A -> Prop) l x :
  StronglySorted R l -> Forall (fun y => R y x) l -> StronglySorted R (l ++ [x]).
Proof.
  induction 1 as [|y l Hs IH Hy]; simpl; intros H.
  - repeat constructor.
  - inversion H; subst. constructor; [now apply IH|].
    apply Forall_app. split; [assumption | now repeat constructor].
Qed.

Lemma StronglySorted_rev l :
  StronglySorted (key_le key) l -> StronglySorted (key_ge key) (rev l).
Proof.
  induction 1 as [|x l Hs IH Hx]; simpl.
  - constructor.
  - apply StronglySorted_snoc; [assumption|].
    apply Forall_rev. revert Hx. apply Forall_impl.
    unfold key_le, key_ge. intros; lia.
Qed.

Lemma py_sorted_perm reverse l : Permutation (py_sorted key reverse l) l.
Proof.
  unfold py_sorted. destruct reverse.
  - rewrite <- Permutation_rev, sorted_asc_perm. symmetry. apply Permutation_rev.
  - apply sorted_asc_perm.
Qed.

Lemma py_sorted_stable reverse k l :
  filter (has_key key k) (py_sorted key reverse l) = filter (has_key key k) l.
Proof.
  unfold py_sorted. destruct reverse.
  - now rewrite filter_rev, sorted_asc_stable, filter_rev, rev_involutive.
  - apply sorted_asc_stable.
Qed.

Lemma py_sorted_asc l : StronglySorted (key_le key) (py_sorted key false l).
Proof. apply sorted_asc_sorted. Qed.

Lemma py_sorted_desc l : StronglySorted (key_ge key) (py_sorted key true l).
Proof. apply StronglySorted_rev, sorted_asc_sorted. Qed.

Lemma StronglySorted_filter (R : A -> A -> Prop) f l :
  StronglySorted R l -> StronglySorted R (filter f l).
Proof.
  induction 1 as [|x l Hs IH Hx]; simpl.
  - constructor.
  - destruct (f x); [|assumption]. constructor; [assumption|].
    apply Forall_forall. intros y Hy. apply filter_In in Hy as [Hy _].
    now apply (proj1 (Forall_forall _ _) Hx).
Qed.

Lemma StronglySorted_firstn (R : A -> A -> Prop) n l :
  StronglySorted R l -> StronglySorted R (firstn n l).
Proof.
  intros H. revert n. induction H as [|x l Hs IH Hx]; intros [|n]; simpl;
    try constructor; auto.
  apply Forall_forall. intros y Hy. apply In_firstn in Hy.
  now apply (proj1 (Forall_forall _ _) Hx).
Qed.
End SortedFacts.

(** ** Python slices *)

Lemma firstn_min {A} (l : list A) : forall n, firstn (Nat.min n (length l)) l = firstn n l.
Proof.
  induction l as [|x l IH]; intros [|n]; simpl; try reflexivity.
  now rewrite IH.
Qed.

(** [l[:n]] *)
Lemma py_slice_prefix {A} (l : list A) n : py_slice l 0 (Z.of_nat n) = firstn n l.
Proof.
  unfold py_slice, clamp_index.
  replace (0 <? 0)%Z with false by reflexivity.
  replace (Z.of_nat n <? 0)%Z with false by (symmetry; apply Z.ltb_ge; lia).
  rewrite (Z.min_l 0) by lia. simpl. rewrite Z.sub_0_r.
  rewrite <- Nat2Z.inj_min, Nat2Z.id. apply firstn_min.
Qed.

(** A slice with bounds inside the list. *)
Lemma py_slice_inside {A} (l : list A) (a b : Z) :
  (0 <= a <= b)%Z -> (b <= Z.of_nat (length l))%Z ->
  py_slice l a b = firstn (Z.to_nat (b - a)) (skipn (Z.to_nat a) l)
  /\ Z.of_nat (length (py_slice l a b)) = (b - a)%Z.
Proof.
  intros Ha Hb. unfold py_slice, clamp_index.
  replace (a <? 0)%Z with false by (symmetry; apply Z.ltb_ge; lia).
  replace (b <? 0)%Z with false by (symmetry; apply Z.ltb_ge; lia).
  rewrite !Z.min_l by lia. split; [reflexivity|].
  rewrite length_firstn, length_skipn. lia.
Qed.

(** ** Keeping the first occurrence of each key *)

Section FirstPerKey.
Context {A K : Type}.
Variable key : A -> K.
Variable eqb : K -> K -> bool.
Hypothesis eqb_spec : forall a b, eqb a b = true <-> a = b.

Lemma first_per_key_In x l : In x (first_per_key key eqb l) -> In x l.
Proof.
  induction l as [|y l IH]; simpl; [tauto|].
  intros [H | H]; [now left | right].
  apply filter_In in H as [H _]. now apply IH.
Qed.

Lemma first_per_key_NoDup l : NoDup (map key (first_per_key key eqb l)).
Proof.
  induction l as [|x l IH]; simpl; constructor.
  - intros H. apply in_map_iff in H as (y & Hy & Hin).
    apply filter_In in Hin as [_ Hne]. unfold other_key in Hne.
    apply negb_true_iff in Hne. symmetry in Hy. apply eqb_spec in Hy. congruence.
  - clear -IH. induction (first_per_key key eqb l) as [|y l' IH']; simpl; [constructor|].
    simpl in IH. inversion IH as [|? ? Hn Hd]; subst.
    destruct (other_key key eqb x y); simpl; [|now apply IH'].
    constructor; [|now apply IH'].
    intros H. apply Hn. apply in_map_iff in H as (z & Hz & Hin).
    apply filter_In in Hin as [Hin _]. apply in_map_iff. eauto.
Qed.

(** Every key of [l] is kept. *)
Lemma first_per_key_covers x l :
  In x l -> exists y, In y (first_per_key key eqb l) /\ key y = key x.
Proof.
  induction l as [|z l IH]; simpl; [tauto|].
  intros [-> | H]; [now exists x; auto|].
  destruct (IH H) as (y & Hy & Hk).
  destruct (eqb (key z) (key y)) eqn:E.
  - apply eqb_spec in E. exists z. split; [now left | congruence].
  - exists y. split; [|assumption]. right. apply filter_In. split; [assumption|].
    unfold other_key. now rewrite E.
Qed.

(** A kept member is the first of [l] with its key. *)
Lemma first_per_key_first x l :
  In x (first_per_key key eqb l) ->
  exists l1 l2, l = l1 ++ x :: l2 /\ ~ In (key x) (map key l1).
Proof.
  induction l as [|z l IH]; simpl; [tauto|].
  intros [<- | H].
  - exists [], l. simpl. auto.
  - apply filter_In in H as [H Hne].
    destruct (IH H) as (l1 & l2 & -> & Hn).
    exists (z :: l1), l2. split; [reflexivity|]. simpl. intros [E | E]; [|tauto].
    unfold other_key in Hne. apply negb_true_iff in Hne.
    apply eqb_spec in E. congruence.
Qed.
End FirstPerKey.

(** ** The de-duplicated summary of detailed-analysis.py *)

Lemma key_eqb_spec (a b : key) : key_eqb a b = true <-> a = b.
Proof.
  unfold key_eqb. destruct a as [a1 a2], b as [b1 b2]. simpl.
  rewrite andb_true_iff, !str_eqb_eq. split; [intros [-> ->] | intros [= -> ->]]; auto.
Qed.

Lemma key_eqb_sym (a b : key) : key_eqb a b = key_eqb b a.
Proof.
  destruct (key_eqb a b) eqn:E1, (key_eqb b a) eqn:E2; try reflexivity.
  - apply key_eqb_spec in E1. subst. rewrite (proj2 (key_eqb_spec b b) eq_refl) in E2.
    discriminate.
  - apply key_eqb_spec in E2. subst. rewrite (proj2 (key_eqb_spec a a) eq_refl) in E1.
    discriminate.
Qed.

Lemma key_in_spec k seen : key_in k seen = true <-> In k seen.
Proof.
  unfold key_in. rewrite existsb_exists. split.
  - intros (x & Hx & E). apply key_eqb_spec in E. now subst.
  - intros H. exists k. split; [assumption | now apply key_eqb_spec].
Qed.

Lemma filter_twice {A} (f g : A -> bool) l :
  filter f (filter g l) = filter (fun x => g x && f x) l.
Proof.
  induction l as [|x l IH]; simpl; [reflexivity|].
  destruct (g x); simpl; [destruct (f x)|]; now rewrite IH.
Qed.

Lemma filter_comm {A} (f g : A -> bool) l :
  filter f (filter g l) = filter g (filter f l).
Proof.
  rewrite !filter_twice. apply filter_ext. intros x. apply andb_comm.
Qed.

(** The set [seen] never holds the same key twice, so its size is the
    length of the list that stands for it; the loop stops when it is 5. *)
Lemma summary_loop_spec : forall errs seen,
  length seen < 5 ->
  summary_loop seen errs =
  firstn (5 - length seen) (filter (unseen seen) (first_per_key err_key key_eqb errs)).
Proof.
  induction errs as [|e errs IH]; intros seen Hlen.
  - simpl. now rewrite firstn_nil.
  - remember (5 - length seen) as n eqn:En. simpl.
    unfold unseen at 1. destruct (key_in (err_key e) seen) eqn:Hin; simpl.
    + rewrite IH by assumption. rewrite <- En. f_equal. rewrite filter_twice.
      apply filter_ext_in. intros x _. unfold unseen, other_key. symmetry.
      destruct (key_in (err_key x) seen) eqn:Hx; simpl; [apply andb_false_r|].
      rewrite andb_true_r. apply negb_true_iff.
      destruct (key_eqb (err_key e) (err_key x)) eqn:E; [|reflexivity].
      apply key_eqb_spec in E. congruence.
    + destruct n as [|n]; [lia|]. simpl. f_equal.
      destruct (length seen <=? 3) eqn:E5.
      * apply Nat.leb_le in E5.
        replace (match length seen with
                 | 0 | 1 | 2 | 3 => false
                 | S (S (S (S _))) => true end) with false
          by (destruct (length seen) as [|[|[|[|?]]]]; [reflexivity ..|lia]).
        rewrite IH by (change (length (err_key e :: seen)) with (S (length seen)); lia).
        replace (5 - length (err_key e :: seen)) with n
          by (change (length (err_key e :: seen)) with (S (length seen)); lia).
        f_equal. rewrite filter_twice.
        apply filter_ext. intros x. unfold unseen, other_key. simpl.
        now rewrite (key_eqb_sym (err_key x) (err_key e)), negb_orb.
      * apply Nat.leb_gt in E5.
        replace (match length seen with
                 | 0 | 1 | 2 | 3 => false
                 | S (S (S (S _))) => true end) with true
          by (destruct (length seen) as [|[|[|[|?]]]]; [lia ..|reflexivity]).
        replace n with 0 by lia. reflexivity.
Qed.

(** The summary is the first five of the first occurrences per key among
    the first twenty entries. *)
Lemma summary_spec errs :
  summary errs = firstn 5 (first_per_key err_key key_eqb (firstn 20 errs)).
Proof.
  unfold summary. change 20%Z with (Z.of_nat 20). rewrite py_slice_prefix.
  generalize (firstn 20 errs). intros l.
  rewrite summary_loop_spec by (simpl; lia).
  change (5 - length (@nil key)) with 5. f_equal.
  induction (first_per_key err_key key_eqb l) as [|x l' IH]; simpl;
    [reflexivity | now rewrite IH].
Qed.

Lemma NoDup_firstn {A} (l : list A) : forall n, NoDup l -> NoDup (firstn n l).
Proof.
  induction l as [|x l IH]; intros [|n] H; simpl; try constructor.
  - inversion H; subst. intros Hin. apply In_firstn in Hin. contradiction.
  - inversion H; subst. now apply IH.
Qed.

Lemma summary_In errs e : In e (summary errs) -> In e (firstn 20 errs).
Proof.
  rewrite summary_spec. intros H. apply In_firstn in H.
  now apply first_per_key_In in H.
Qed.

(** Entries are collected with growing line numbers. *)
Lemma collect_line_nums lines : forall rest i,
  StronglySorted lt (map line_num (collect lines rest i))
  /\ Forall (fun n => i < n) (map line_num (collect lines rest i)).
Proof.
  induction rest as [|line rest IH]; intros i; simpl.
  - split; constructor.
  - destruct (IH (S i)) as [Hs Hf].
    assert (Hf' : Forall (fun n => i < n) (map line_num (collect lines rest (S i)))).
    { revert Hf. apply Forall_impl. intros; lia. }
    destruct (contains phrase line); simpl; [|now split]. split.
    + constructor; [assumption|]. revert Hf. apply Forall_impl. intros; lia.
    + constructor; [lia | assumption].
Qed.

Lemma StronglySorted_lt_NoDup l : StronglySorted lt l -> NoDup l.
Proof.
  induction 1 as [|x l Hs IH Hx]; constructor; [|assumption].
  intros Hin. apply (proj1 (Forall_forall _ _) Hx) in Hin. lia.
Qed.

Lemma db_config_errors_NoDup lines : NoDup (db_config_errors lines).
Proof.
  apply NoDup_map_inv with (f := line_num).
  apply StronglySorted_lt_NoDup, collect_line_nums.
Qed.

(** * The properties of the specification *)

(** ** The context window *)

(** The loop visits the line indices of the document only. *)
Lemma collect_bounds lines : forall rest i,
  Forall (fun e => i < line_num e <= i + length rest) (collect lines rest i).
Proof.
  induction rest as [|l rest IH]; intros i; simpl; [constructor|].
  apply Forall_app. split.
  - destruct (contains phrase l); constructor; [simpl; lia | constructor].
  - specialize (IH (S i)). revert IH. apply Forall_impl. intros e. lia.
Qed.



(** ** The de-duplicated summary *)

(** C3, as stated, fails: the loop runs over the first 20 occurrences only,
    so the pair that first appears at the 21st occurrence is not
    summarized although fewer than 5 pairs were found. *)
Lemma C3_summary_misses_later_pairs :
  summary (db_config_errors log_21_occurrences)
  <> summary_of_all 5 (db_config_errors log_21_occurrences).
Proof.
  intros H. apply (f_equal (@length err_info)) in H. vm_compute in H. discriminate.
Qed.

(** C3, amended: the summary iterates the first 20 occurrences in document
    order, keeps the first occurrence of each distinct (call site, test)
    pair and stops once 5 pairs are reached or the 20 are exhausted. *)
Theorem C3_summary_of_first_twenty (errs : list err_info) :
  summary errs = summary_of_all 5 (firstn 20 errs)
  /\ (forall e, In e (summary errs) ->
        exists l1 l2, firstn 20 errs = l1 ++ e :: l2
                      /\ ~ In (err_key e) (map err_key l1))
  /\ (length (summary errs) < 5 ->
      forall e, In e (firstn 20 errs) ->
        exists e', In e' (summary errs) /\ err_key e' = err_key e).
Proof.
  split; [apply summary_spec|]. rewrite summary_spec. split.
  - intros e H. apply In_firstn in H.
    now apply (first_per_key_first err_key key_eqb key_eqb_spec).
  - intros Hlen e He.
    assert (Hall : firstn 5 (first_per_key err_key key_eqb (firstn 20 errs))
                   = first_per_key err_key key_eqb (firstn 20 errs)).
    { apply firstn_all2. rewrite length_firstn in Hlen. lia. }
    rewrite Hall. now apply (first_per_key_covers err_key key_eqb key_eqb_spec).
Qed.

(** C9: whatever the occurrences, the summary holds at most 5 entries, and
    their (call site, test) pairs are distinct. *)
Theorem C9_summary_cap (errs : list err_info) :
  length (summary errs) <= 5 /\ NoDup (map err_key (summary errs)).
Proof.
  rewrite summary_spec. split.
  - apply firstn_le_length.
  - rewrite <- firstn_map. apply NoDup_firstn.
    apply (first_per_key_NoDup err_key key_eqb key_eqb_spec).
Qed.

(** C10: every entry of the summary is one of the first 20 occurrences; in
    the list that the script collects no entry of the summary sits at index
    20 or later; and this holds also when fewer than 5 pairs were found, as
    in the log whose 21st occurrence has a pair of its own. *)
Theorem C10_summary_within_first_twenty :
  (forall errs e, In e (summary errs) ->
     exists i, i < 20 /\ nth_error errs i = Some e)
  /\ (forall lines e j, In e (summary (db_config_errors lines)) ->
        nth_error (db_config_errors lines) j = Some e -> j < 20)
  /\ (let errs := db_config_errors log_21_occurrences in
      length errs = 21 /\ length (summary errs) = 1
      /\ forall e, nth_error errs 20 = Some e ->
           ~ In (err_key e) (map err_key (firstn 20 errs)) /\ ~ In e (summary errs)).
Proof.
  assert (H1 : forall errs e, In e (summary errs) ->
                 exists i, i < 20 /\ nth_error errs i = Some e).
  { intros errs e H. apply summary_In in H.
    apply In_nth_error in H as [i Hi]. exists i.
    rewrite nth_error_firstn in Hi.
    destruct (i <? 20) eqn:E; [|discriminate].
    apply Nat.ltb_lt in E. auto. }
  split; [exact H1|]. split.
  - intros lines e j He Hj. destruct (H1 _ _ He) as (i & Hi & Hnth).
    pose proof (db_config_errors_NoDup lines) as Hnd.
    rewrite NoDup_nth_error in Hnd.
    assert (i = j); [|lia].
    apply Hnd; [|congruence].
    apply nth_error_Some. congruence.
  - cbv zeta. split; [vm_compute; reflexivity|]. split; [vm_compute; reflexivity|].
    intros e He. vm_compute in He. injection He as <-. split.
    + vm_compute. intros H. repeat (destruct H as [H|H]; [discriminate H|]). exact H.
    + vm_compute. intros [H|[]]. discriminate H.
Qed.

(** ** Counters *)

Lemma mem_spec k l : mem k l = true <-> In k l.
Proof.
  unfold mem. rewrite existsb_exists. split.
  - intros (x & Hx & E). apply str_eqb_eq in E. now subst.
  - intros H. exists k. split; [assumption | apply str_eqb_refl].
Qed.

Lemma str_eqb_sym a b : str_eqb a b = str_eqb b a.
Proof.
  unfold str_eqb.
  destruct (list_eq_dec ascii_dec a b), (list_eq_dec ascii_dec b a); congruence.
Qed.

Lemma counter_add_get k d k' :
  dict_get (counter_add k d) k' = dict_get d k' + (if str_eqb k' k then 1 else 0).
Proof.
  induction d as [|[k0 n] d IH]; simpl.
  - destruct (str_eqb k' k); reflexivity.
  - destruct (str_eqb k k0) eqn:E; simpl.
    + apply str_eqb_eq in E. subst k0.
      destruct (str_eqb k' k); lia.
    + destruct (str_eqb k' k0) eqn:E'; [|apply IH].
      apply str_eqb_eq in E'. subst k0. rewrite str_eqb_sym, E. lia.
Qed.

Lemma counter_add_keys k d :
  keys (counter_add k d) = if mem k (keys d) then keys d else keys d ++ [k].
Proof.
  unfold keys, mem. induction d as [|[k0 n] d IH]; simpl.
  - reflexivity.
  - destruct (str_eqb k k0) eqn:E; simpl; [reflexivity|].
    rewrite IH. now destruct (existsb (str_eqb k) (map fst d)).
Qed.

Lemma fold_counter_get k : forall l d,
  dict_get (fold_left (fun d k => counter_add k d) l d) k
  = dict_get d k + count_occ str_dec l k.
Proof.
  induction l as [|x l IH]; intros d; simpl.
  - lia.
  - rewrite IH, counter_add_get. rewrite str_eqb_sym. unfold str_eqb, str_dec.
    destruct (list_eq_dec ascii_dec x k); lia.
Qed.

(** A counter holds, for each key, the number of its occurrences. *)
Lemma Counter_get l k : dict_get (Counter l) k = count_occ str_dec l k.
Proof. unfold Counter. now rewrite fold_counter_get. Qed.

Lemma fold_counter_keys : forall l d,
  keys (fold_left (fun d k => counter_add k d) l d)
  = keys d ++ filter (fun x => negb (mem x (keys d))) (first_per_key same str_eqb l).
Proof.
  induction l as [|x l IH]; intros d; simpl.
  - now rewrite app_nil_r.
  - rewrite IH, counter_add_keys. destruct (mem x (keys d)) eqn:E; simpl.
    + f_equal. rewrite filter_twice. apply filter_ext_in. intros y _.
      unfold other_key, same.
      destruct (mem y (keys d)) eqn:Ey; simpl; [now rewrite andb_false_r|].
      rewrite andb_true_r. symmetry. apply negb_true_iff.
      destruct (str_eqb x y) eqn:Exy; [|reflexivity].
      apply str_eqb_eq in Exy. congruence.
    + rewrite <- app_assoc. simpl. do 2 f_equal. rewrite filter_twice.
      apply filter_ext. intros y. unfold other_key, same, mem.
      rewrite existsb_app. simpl. rewrite orb_false_r, negb_orb.
      rewrite (str_eqb_sym y x). apply andb_comm.
Qed.

(** The keys of a counter are in first-seen order. *)
Lemma Counter_keys l : keys (Counter l) = first_per_key same str_eqb l.
Proof.
  unfold Counter. rewrite fold_counter_keys. simpl.
  induction (first_per_key same str_eqb l) as [|x l' IH]; simpl;
    [reflexivity | now rewrite IH].
Qed.

Lemma Counter_keys_NoDup l : NoDup (keys (Counter l)).
Proof.
  rewrite Counter_keys.
  pose proof (first_per_key_NoDup same str_eqb str_eqb_eq l) as H.
  now rewrite map_id in H.
Qed.

(** The size of a counter is the number of distinct members. *)
Lemma Counter_length l : length (Counter l) = length (nodup str_dec l).
Proof.
  rewrite <- (length_map fst (Counter l)). fold (keys (Counter l)).
  apply Permutation_length, NoDup_Permutation.
  - apply Counter_keys_NoDup.
  - apply NoDup_nodup.
  - intros x. rewrite nodup_In, Counter_keys. split.
    + apply first_per_key_In.
    + intros H. destruct (first_per_key_covers same str_eqb str_eqb_eq x l H)
        as (y & Hy & E). unfold same in E. now subst.
Qed.

(** The items of a counter pair each key with its count. *)
Lemma Counter_items l x : In x (Counter l) -> snd x = count_occ str_dec l (fst x).
Proof.
  intros H. rewrite <- Counter_get.
  pose proof (Counter_keys_NoDup l) as Hnd. unfold keys in Hnd.
  induction (Counter l) as [|[k n] d IH]; simpl in *; [contradiction|].
  inversion Hnd as [|? ? Hn Hd]; subst. destruct H as [<- | H]; simpl.
  - now rewrite str_eqb_refl.
  - destruct (str_eqb (fst x) k) eqn:E; [|now apply IH].
    apply str_eqb_eq in E. subst k. exfalso. apply Hn. now apply in_map.
Qed.

(** ** The category view of analyze-failures.py *)

Lemma NoDup_keys_filter (f : str * nat -> bool) (d : dict) :
  NoDup (keys d) -> NoDup (keys (filter f d)).
Proof.
  unfold keys. induction d as [|x d IH]; simpl; intros H; [constructor|].
  inversion H as [|? ? Hn Hd]; subst.
  destruct (f x); simpl; [|now apply IH].
  constructor; [|now apply IH].
  intros Hin. apply Hn. apply in_map_iff in Hin as (y & Hy & Hin).
  apply filter_In in Hin as [Hin _]. apply in_map_iff. eauto.
Qed.

Lemma StronglySorted_impl {A} (R S : A -> A -> Prop) l :
  (forall a b, R a b -> S a b) -> StronglySorted R l -> StronglySorted S l.
Proof.
  intros HRS. induction 1 as [|x l Hs IH Hx]; constructor; auto.
  revert Hx. apply Forall_impl. auto.
Qed.

Lemma error_patterns_keys content :
  keys (error_patterns content) = map rule_name rules.
Proof.
  unfold keys, error_patterns. rewrite map_map. now apply map_ext.
Qed.

Lemma rule_names_NoDup : NoDup (map rule_name rules).
Proof.
  repeat constructor; intros H; vm_compute in H; intuition discriminate.
Qed.

(** C8: the category view has one entry for each rule with a positive
    count and none for a rule with count 0; the entries are in descending
    order of count, and entries with one count are in the order of the
    table. *)
Theorem C8_category_view (items : dict) :
  NoDup (keys items) ->
  let view := category_view items in
  NoDup (keys view)
  /\ (forall x, In x view <-> In x items /\ 0 < snd x)
  /\ StronglySorted count_ge view
  /\ (forall c, filter (with_count c) view = filter (with_count c) (filter positive items)).
Proof.
  intros Hnd view. unfold view, category_view.
  set (neg := fun x : str * nat => (- Z.of_nat (snd x))%Z).
  pose proof (py_sorted_perm neg false items) as Hperm.
  repeat split.
  - apply NoDup_keys_filter. unfold keys.
    apply (Permutation_NoDup (l := map fst items)); [|assumption].
    apply Permutation_map. now symmetry.
  - apply filter_In in H as [H _]. now apply (Permutation_in _ Hperm).
  - apply filter_In in H as [_ H]. now apply Nat.ltb_lt in H.
  - intros [Hin Hpos]. apply filter_In. split.
    + apply (Permutation_in _ (Permutation_sym Hperm)), Hin.
    + now apply Nat.ltb_lt.
  - apply StronglySorted_filter.
    apply (StronglySorted_impl (key_le neg)); [|apply py_sorted_asc].
    unfold key_le, neg, count_ge. intros a b. lia.
  - intros c. fold positive.
    assert (Hk : forall l : dict,
               filter (with_count c) l = filter (has_key neg (- Z.of_nat c)) l).
    { intros l. apply filter_ext. intros x. unfold has_key, neg, with_count.
      destruct (snd x =? c) eqn:E.
      - apply Nat.eqb_eq in E. rewrite E. symmetry. apply Z.eqb_refl.
      - apply Nat.eqb_neq in E. symmetry. apply Z.eqb_neq. lia. }
    rewrite (filter_comm (with_count c) positive).
    rewrite (filter_comm (with_count c) positive items).
    now rewrite !Hk, py_sorted_stable.
Qed.

Lemma C8_category_view_witness :
  category_view (error_patterns (lit "NOGROUP timed out NOGROUP Redis connection error"))
  = [(lit "NOGROUP Error", 2); (lit "Redis Connection", 1); (lit "Timeout", 1)]
  /\ StronglySorted count_ge
       (category_view (error_patterns (lit "NOGROUP timed out NOGROUP Redis connection error"))).
Proof.
  split; [vm_compute; reflexivity|].
  refine (proj1 (proj2 (proj2 (C8_category_view (error_patterns _) _)))).
  rewrite error_patterns_keys. exact rule_names_NoDup.
Defined.

(** ** The mention tally of analyze-failures.py *)

Lemma three_and_one (l : list str) :
  Permutation l [spec_a; spec_a; spec_a; spec_b] ->
  l = [spec_a; spec_a; spec_a; spec_b] \/ l = [spec_a; spec_a; spec_b; spec_a]
  \/ l = [spec_a; spec_b; spec_a; spec_a] \/ l = [spec_b; spec_a; spec_a; spec_a].
Proof.
  intros H.
  pose proof (Permutation_length H) as Hlen.
  pose proof (proj1 (Permutation_count_occ str_dec l _) H spec_b) as Hb.
  assert (Hin : forall x, In x l -> x = spec_a \/ x = spec_b).
  { intros x Hx. apply (Permutation_in _ H) in Hx. simpl in Hx. intuition. }
  destruct l as [|x1 [|x2 [|x3 [|x4 [|]]]]]; try discriminate Hlen.
  assert (H1 := Hin x1 (or_introl eq_refl)).
  assert (H2 := Hin x2 (or_intror (or_introl eq_refl))).
  assert (H3 := Hin x3 (or_intror (or_intror (or_introl eq_refl)))).
  assert (H4 := Hin x4 (or_intror (or_intror (or_intror (or_introl eq_refl))))).
  clear Hin H Hlen.
  destruct H1 as [-> | ->], H2 as [-> | ->], H3 as [-> | ->], H4 as [-> | ->];
    vm_compute in Hb; try discriminate Hb; auto.
Qed.

(** C7: the tally counts the tokens of the left-to-right scan of the text
    for the reference pattern, its size is the number of distinct tokens
    and is printed as the total, and the listing of the top [n] is in descending order of count with
    equal counts in first-seen order; three mentions of one file and one of
    another give the listing of the scenario. *)
Theorem C7_mentions (content : str) :
  let toks := test_files content in
  let tally := test_file_counts content in
  Scanned false re_test_file content toks
  /\ (forall k, dict_get tally k = count_occ str_dec toks k)
  /\ (forall x, In x tally -> snd x = count_occ str_dec toks (fst x))
  /\ keys tally = first_per_key same str_eqb toks
  /\ length tally = length (nodup str_dec toks)
  /\ In (newline :: lit "Total unique test files: "
          ++ show_nat (length (nodup str_dec toks)))
        (AnalyzeFailures.report content)
  /\ (forall n, exists ranked,
        most_common n tally = firstn n ranked
        /\ Permutation ranked tally
        /\ StronglySorted count_ge ranked
        /\ forall c, filter (with_count c) ranked = filter (with_count c) tally)
  /\ (Permutation toks [spec_a; spec_a; spec_a; spec_b] ->
      most_common 2 tally = [(spec_a, 3); (spec_b, 1)] /\ length tally = 2)
  /\ (most_common 2 (test_file_counts log_mentions) = [(spec_a, 3); (spec_b, 1)]
      /\ length (test_file_counts log_mentions) = 2).
Proof.
  intros toks tally. unfold tally, test_file_counts. fold toks.
  split; [|split; [|split; [|split; [|split; [|split; [|split; [|split]]]]]]].
  - apply findall_Scanned; [reflexivity | now apply not_nullable].
  - intros k. apply Counter_get.
  - intros x. apply Counter_items.
  - apply Counter_keys.
  - apply Counter_length.
  - unfold AnalyzeFailures.report, test_file_counts. fold toks.
    rewrite <- Counter_length.
    do 4 (apply in_or_app; right). now left.
  - intros n. set (cnt := fun x : str * nat => Z.of_nat (snd x)).
    exists (py_sorted cnt true (Counter toks)). repeat split.
    + apply py_sorted_perm.
    + apply (StronglySorted_impl (key_ge cnt)); [|apply py_sorted_desc].
      unfold key_ge, cnt, count_ge. intros a b. lia.
    + intros c.
      assert (Hk : forall l : dict,
                 filter (with_count c) l = filter (has_key cnt (Z.of_nat c)) l).
      { intros l. apply filter_ext. intros x. unfold has_key, cnt, with_count.
        destruct (snd x =? c) eqn:E.
        - apply Nat.eqb_eq in E. rewrite E. symmetry. apply Z.eqb_refl.
        - apply Nat.eqb_neq in E. symmetry. apply Z.eqb_neq. lia. }
      rewrite !Hk. apply py_sorted_stable.
  - intros H. apply three_and_one in H.
    destruct H as [-> | [-> | [-> | ->]]]; split; vm_compute; reflexivity.
  - split; vm_compute; reflexivity.
Qed.

(** ** The pattern counts of analyze-failures.py *)

Lemma dict_get_rules (f : rule -> nat) : forall rs r,
  NoDup (map rule_name rs) -> In r rs ->
  dict_get (map (fun r => (rule_name r, f r)) rs) (rule_name r) = f r.
Proof.
  induction rs as [|r0 rs IH]; simpl; intros r Hnd Hin; [contradiction|].
  inversion Hnd as [|? ? Hn Hd]; subst. destruct Hin as [-> | Hin].
  - now rewrite str_eqb_refl.
  - destruct (str_eqb (rule_name r) (rule_name r0)) eqn:E; [|now apply IH].
    apply str_eqb_eq in E. exfalso. apply Hn. rewrite <- E. now apply in_map.
Qed.

Lemma rules_shape r :
  In r rules -> has_group (rule_re r) = false /\ nullable (rule_re r) = false.
Proof.
  intros H. repeat (destruct H as [<- | H]; [split; reflexivity|]). contradiction.
Qed.

Lemma rules_literal r :
  In r rules -> rule_ic r = false -> exists w, rule_re r = Lit w.
Proof.
  intros H Hic.
  repeat (destruct H as [<- | H]; [try discriminate Hic; eexists; reflexivity|]).
  contradiction.
Qed.

(** C2: the count of a rule is the number of matches in the left-to-right
    scan of the whole text: the matches do not overlap, each is in the
    language of the rule's pattern, and no match begins at a position that
    the scan passes over.  The language is closed under changes of case
    when the rule carries [re.IGNORECASE], and is one exact text when it
    does not.  A rule that matches nowhere has count 0. *)
Theorem C2_pattern_counts (content : str) (r : rule) :
  In r rules ->
  (exists ms, Scanned (rule_ic r) (rule_re r) content ms
              /\ count_rule content r = length ms)
  /\ dict_get (error_patterns content) (rule_name r) = count_rule content r
  /\ (NoMatchIn (rule_ic r) (rule_re r) content -> count_rule content r = 0)
  /\ (rule_ic r = true ->
      forall m m', Matches true (rule_re r) m -> map lower m = map lower m' ->
                   Matches true (rule_re r) m')
  /\ (rule_ic r = false ->
      exists w, forall m, Matches false (rule_re r) m <-> m = w).
Proof.
  intros Hin. destruct (rules_shape r Hin) as [Hg Hn].
  split; [|split; [|split; [|split]]].
  - exists (findall (rule_ic r) (rule_re r) content). split; [|reflexivity].
    apply findall_Scanned; [assumption | now apply not_nullable].
  - unfold error_patterns. apply dict_get_rules; [apply rule_names_NoDup | assumption].
  - intros Hno. unfold count_rule, findall.
    now rewrite (scan_nomatch _ _ _ 0 Hno).
  - intros _ m m' Hm E. exact (Matches_fold _ _ Hm m' E).
  - intros Hic. destruct (rules_literal r Hin Hic) as [w ->].
    exists w. apply Matches_Lit.
Qed.

Lemma C2_pattern_counts_witness :
  let timeout := {| rule_name := lit "Timeout"; rule_re := re_timeout; rule_ic := true |} in
  let nogroup := {| rule_name := lit "NOGROUP Error"; rule_re := re_nogroup; rule_ic := false |} in
  let content := lit "request Timed Out, TIMEOUT after timeout
nogroup NOGROUP NOGROUP" in
  count_rule content timeout = 3 /\ count_rule content nogroup = 2
  /\ dict_get (error_patterns content) (lit "Timeout") = 3.
Proof.
  intros timeout nogroup content.
  split; [reflexivity|]. split; [reflexivity|].
  change (lit "Timeout") with (rule_name timeout).
  rewrite (proj1 (proj2 (C2_pattern_counts content timeout
                           (or_intror (or_intror (or_introl eq_refl)))))).
  reflexivity.
Defined.

(** ** One occurrence of the database phrase *)

Lemma match_at_NoMatchAt ic r s : NoMatchAt ic r s -> match_at false ic r s = None.
Proof.
  intros H. destruct (match_at false ic r s) as [[m g]|] eqn:E; [|reflexivity].
  destruct (match_at_sound _ _ _ _ _ _ E) as (rest & Hs & Hm & _).
  destruct (H m rest Hs Hm).
Qed.

(** One step of the scan for a pattern that does not match the empty text. *)
Lemma scan_step ic r pos s :
  ~ Matches ic r [] ->
  scan ic r pos s 0 =
  match match_at false ic r s with
  | Some (m, g) =>
      {| m_start := pos; m_text := m; m_cap := g |}
      :: scan ic r (pos + length m) (skipn (length m) s) 0
  | None => match s with [] => [] | _ :: t => scan ic r (S pos) t 0 end
  end.
Proof.
  intros Hnn. rewrite scan_eq. simpl.
  destruct (match_at false ic r s) as [[m g]|] eqn:E; [|reflexivity].
  destruct (match_at_sound _ _ _ _ _ _ E) as (rest & -> & Hm & _).
  destruct m as [|c m]; [contradiction|]. simpl.
  rewrite scan_skip by (rewrite length_app; lia).
  f_equal. f_equal. lia.
Qed.

Lemma scan_prefix ic r tail : forall pre pos,
  NoMatchBefore ic r pre tail ->
  scan ic r pos (pre ++ tail) 0 = scan ic r (pos + length pre) tail 0.
Proof.
  induction pre as [|c pre IH]; intros pos H.
  - simpl. now rewrite Nat.add_0_r.
  - change ((c :: pre) ++ tail) with (c :: pre ++ tail).
    rewrite scan_eq. cbv beta zeta iota.
    rewrite (match_at_NoMatchAt ic r (c :: pre ++ tail)).
    + rewrite IH; [f_equal; simpl; lia|].
      intros p1 p2 E Hne. apply (H (c :: p1) p2); [simpl; now rewrite E | assumption].
    + apply (H [] (c :: pre)); [reflexivity | discriminate].
Qed.

Lemma app_prefix_shorten (w u v rest : str) :
  u ++ v = w ++ rest -> length w <= length u -> exists y, u = w ++ y.
Proof.
  revert u. induction w as [|c w IH]; intros u E Hlen; simpl in *.
  - now exists u.
  - destruct u as [|c' u]; simpl in *; [lia|].
    injection E as -> E. destruct (IH u E) as [y ->]; [lia|]. now exists y.
Qed.

Lemma occurs_before (w pre post : str) :
  w <> [] -> contains w (pre ++ removelast w) = false ->
  NoMatchBefore false (Lit w) pre (w ++ post).
Proof.
  intros Hw Hc p1 p2 -> Hne m rest E Hm. apply Matches_Lit in Hm. subst m.
  assert (Hnot : contains w ((p1 ++ p2) ++ removelast w) <> true) by congruence.
  apply Hnot. apply contains_spec.
  rewrite (app_removelast_last "000"%char Hw) in E at 1.
  rewrite <- !app_assoc in E. rewrite app_assoc in E.
  apply app_prefix_shorten in E as [y Hy].
  - exists p1, y. now rewrite <- app_assoc, Hy.
  - rewrite length_app.
    assert (length w = length (removelast w) + 1).
    { rewrite (app_removelast_last "000"%char Hw) at 1. now rewrite length_app. }
    destruct p2; [contradiction | simpl; lia].
Qed.

Lemma occurs_after (w post : str) :
  contains w post = false -> NoMatchIn false (Lit w) post.
Proof.
  intros Hc p1 p2 -> m rest -> Hm. apply Matches_Lit in Hm. subst m.
  assert (Hnot : contains w (p1 ++ w ++ rest) <> true) by congruence.
  apply Hnot. apply contains_spec. now exists p1, rest.
Qed.

(** A text with the phrase at one place is scanned to one match. *)
Lemma findall_phrase_once (pre post : str) :
  contains phrase (pre ++ removelast phrase) = false ->
  contains phrase post = false ->
  findall false re_db_config (pre ++ phrase ++ post) = [phrase].
Proof.
  intros Hpre Hpost.
  assert (Hnn : ~ Matches false re_db_config []) by (now apply not_nullable).
  unfold findall. change (has_group re_db_config) with false.
  rewrite scan_prefix by (apply occurs_before; [discriminate | assumption]).
  rewrite (scan_step false re_db_config _ _ Hnn).
  destruct (match_at false false re_db_config (phrase ++ post)) as [[m g]|] eqn:E.
  - destruct (match_at_sound _ _ _ _ _ _ E) as (rest & Hs & Hm & _).
    apply Matches_Lit in Hm. subst m. apply app_inv_head in Hs. subst rest.
    rewrite skipn_app, skipn_all, Nat.sub_diag. simpl skipn at 1. simpl app.
    rewrite scan_nomatch by (now apply occurs_after). reflexivity.
  - apply match_at_none in E. exfalso.
    apply (E phrase post eq_refl). now apply Matches_Lit.
Qed.

Lemma category_view_In (items : dict) x :
  In x (category_view items) <-> In x items /\ 0 < snd x.
Proof.
  unfold category_view. rewrite filter_In, Nat.ltb_lt.
  set (neg := fun x : str * nat => (- Z.of_nat (snd x))%Z).
  pose proof (py_sorted_perm neg false items) as Hperm. split.
  - intros [H Hp]. split; [now apply (Permutation_in _ Hperm) | assumption].
  - intros [H Hp]. split; [|assumption].
    now apply (Permutation_in _ (Permutation_sym Hperm)).
Qed.

(** C4, as stated, fails: the script prints the word [occurrences] after
    every count, so no line of the report is the line that the
    specification names. *)
Lemma C4_line_is_plural :
  length log_20_lines = 20
  /\ contains phrase (nth 10 log_20_lines []) = true
  /\ ~ In (lit "Database Config Missing: 1 occurrence")
          (AnalyzeFailures.report (concat log_20_lines))
  /\ category_report (concat log_20_lines) = [lit "Database Config Missing: 1 occurrences"].
Proof.
  split; [reflexivity|]. split; [reflexivity|]. split; [|reflexivity].
  vm_compute. intros H. repeat (destruct H as [H|H]; [discriminate H|]). exact H.
Qed.

(** C4, amended: for a document of 20 lines whose line of index 10 holds
    the phrase, the phrase being nowhere else in the document, the rule
    counts one match and the category report has the line
    [Database Config Missing: 1 occurrences]. *)
Theorem C4_database_config_line (lines : list str) (a b : str) :
  length lines = 20 ->
  nth 10 lines [] = a ++ phrase ++ b ->
  contains phrase (concat (firstn 10 lines) ++ a ++ removelast phrase) = false ->
  contains phrase (b ++ concat (skipn 11 lines)) = false ->
  let content := concat lines in
  count_rule content db_rule = 1
  /\ In (lit "Database Config Missing: 1 occurrences") (category_report content)
  /\ In (lit "Database Config Missing: 1 occurrences") (AnalyzeFailures.report content).
Proof.
  intros Hlen Hline Hpre Hpost content.
  assert (Hsplit : content
                   = (concat (firstn 10 lines) ++ a) ++ phrase ++ b ++ concat (skipn 11 lines)).
  { unfold content.
    assert (Hmid : nth_error lines 10 = Some (nth 10 lines []))
      by (apply nth_error_nth'; lia).
    rewrite <- (firstn_skipn_middle 10 lines Hmid) at 1.
    rewrite concat_app. simpl. rewrite Hline. now rewrite <- !app_assoc. }
  assert (Hcount : count_rule content db_rule = 1).
  { unfold count_rule. simpl rule_ic. simpl rule_re. rewrite Hsplit.
    rewrite findall_phrase_once; [reflexivity | now rewrite <- app_assoc | assumption]. }
  assert (Hrep : In (lit "Database Config Missing: 1 occurrences") (category_report content)).
  { change (lit "Database Config Missing: 1 occurrences")
      with (category_line (rule_name db_rule, 1)).
    apply in_map. apply category_view_In. split; [|simpl; lia].
    rewrite <- Hcount. unfold error_patterns.
    apply (in_map (fun r => (rule_name r, count_rule content r)) rules db_rule).
    now left. }
  repeat split; try assumption.
  unfold AnalyzeFailures.report. apply in_or_app. right.
  apply in_or_app. left. exact Hrep.
Qed.

Lemma C4_database_config_line_witness :
  In (lit "Database Config Missing: 1 occurrences")
     (AnalyzeFailures.report (concat log_20_lines)).
Proof.
  refine (proj2 (proj2 (C4_database_config_line log_20_lines (lit "ERROR ") [newline]
                          eq_refl eq_refl _ _))); vm_compute; reflexivity.
Defined.

(** ** The stack frame parser of detailed-analysis.py *)

(** A greedy repetition takes the longest run after which the rest of the
    pattern succeeds. *)
Lemma star_greedy_longest {A} (p : ascii -> bool) : forall s (k : str -> option A) x,
  star_greedy p s k = Some x ->
  exists m s1,
    s = m ++ s1 /\ Forall (fun c => p c = true) m /\ k s1 = Some x
    /\ forall m' s1', s = m' ++ s1' -> Forall (fun c => p c = true) m' ->
                      length m < length m' -> k s1' = None.
Proof.
  induction s as [|c s IH]; simpl; intros k x H.
  - exists [], []. repeat split; auto.
    intros m' s1' E _ Hlen. symmetry in E. apply app_eq_nil in E as [-> _].
    simpl in Hlen. lia.
  - destruct (p c) eqn:Hp.
    + destruct (star_greedy p s k) eqn:Hs.
      * injection H as ->.
        destruct (IH k x Hs) as (m & s1 & -> & Hm & Hk & Hmax).
        exists (c :: m), s1. repeat split; auto.
        intros m' s1' E Hm' Hlen. destruct m' as [|c' m']; [simpl in Hlen; lia|].
        simpl in E. injection E as <- E. inversion Hm'; subst.
        apply (Hmax m' s1' E); [assumption | simpl in Hlen; lia].
      * exists [], (c :: s). repeat split; auto.
        intros m' s1' E Hm' Hlen. destruct m' as [|c' m']; [simpl in Hlen; lia|].
        simpl in E. injection E as <- ->. inversion Hm'; subst.
        now apply (star_greedy_complete p _ k Hs m' s1').
    + exists [], (c :: s). repeat split; auto.
      intros m' s1' E Hm' Hlen. destruct m' as [|c' m']; [simpl in Hlen; lia|].
      simpl in E. injection E as <- ->. inversion Hm'; subst. congruence.
Qed.

Lemma frame_text_Matches mid g :
  Matches false (Star CAny) mid -> Matches false re_call_site g ->
  Matches false re_frame (frame_text mid g).
Proof.
  intros Hmid Hg. unfold re_frame, frame_text.
  apply M_Seq; [now apply Matches_Lit|].
  apply M_Seq; [assumption|].
  apply (M_Seq false _ _ ["("%char]); [now constructor|].
  apply M_Seq; [now constructor | now constructor].
Qed.

Lemma rmatch_seq {A} ic r1 r2 s g (k : str -> cap -> option A) :
  rmatch ic (Seq r1 r2) s g k = rmatch ic r1 s g (fun s1 g1 => rmatch ic r2 s1 g1 k).
Proof. reflexivity. Qed.

Lemma rmatch_star {A} ic cs s g (k : str -> cap -> option A) :
  rmatch ic (Star cs) s g k = star_greedy (cset_match ic cs) s (fun s1 => k s1 g).
Proof. reflexivity. Qed.

Lemma rmatch_chr {A} ic c s g (k : str -> cap -> option A) x :
  rmatch ic (Chr (CChar c)) s g k = Some x ->
  ic = false -> exists s1, s = c :: s1 /\ k s1 g = Some x.
Proof.
  simpl. intros H ->. destruct s as [|c' t]; [discriminate|].
  destruct (Ascii.eqb c' c) eqn:E; [|discriminate].
  apply Ascii.eqb_eq in E. subst. now exists t.
Qed.

(** A match of the frame pattern at the head of [s]: its shape, its
    capture, and the choice of the greedy run. *)
Lemma frame_match_inv (s m : str) (g : cap) :
  match_at false false re_frame s = Some (m, g) ->
  exists mid gtxt post,
    s = frame_text mid gtxt ++ post
    /\ m = frame_text mid gtxt
    /\ g = Some gtxt
    /\ Matches false (Star CAny) mid
    /\ Matches false re_call_site gtxt
    /\ forall mid' g' post',
         s = frame_text mid' g' ++ post' ->
         Matches false (Star CAny) mid' -> Matches false re_call_site g' ->
         length mid' <= length mid.
Proof.
  unfold match_at, re_frame. rewrite rmatch_seq. intros H.
  apply rmatch_sound in H as (m1 & s1 & g1 & Hs & Hat & H).
  apply Matches_Lit in Hat. subst m1.
  rewrite rmatch_seq, rmatch_star in H.
  apply star_greedy_longest in H as (mid & s2 & -> & Hmid & H & Hmax).
  cbv beta in H, Hmax. rewrite rmatch_seq in H.
  apply rmatch_chr in H as (s3 & -> & H); [|reflexivity].
  cbv beta in H. rewrite rmatch_seq in H.
  apply rmatch_group_sound in H as (gtxt & s4 & -> & Hg & H).
  cbv beta in H.
  apply rmatch_chr in H as (post & -> & H); [|reflexivity].
  simpl andb in H. cbv iota in H.
  assert (Hs' : s = frame_text mid gtxt ++ post).
  { rewrite Hs. unfold frame_text. now rewrite <- !app_assoc. }
  rewrite Hs' in H. rewrite firstn_consumed in H. injection H as <- <-.
  exists mid, gtxt, post.
  split; [exact Hs'|]. split; [reflexivity|]. split; [reflexivity|].
  split; [now constructor|]. split; [assumption|].
  intros mid' g' post' E Hmid' Hg'.
  destruct (le_lt_dec (length mid') (length mid)) as [Hle | Hlt]; [assumption|].
  exfalso. rewrite Hs in E. unfold frame_text in E. rewrite <- !app_assoc in E.
  apply app_inv_head in E. inversion Hmid' as [| | | | |cs m' Hall| |]; subst.
  specialize (Hmax mid' _ E Hall Hlt).
  assert (Hm : Matches false (Seq (Chr (CChar "(")) (Seq (Group re_call_site) (Chr (CChar ")"))))
                 (["("%char] ++ g' ++ [")"%char])).
  { apply M_Seq; [now constructor|]. apply M_Seq; [now constructor | now constructor]. }
  destruct (rmatch_complete false _ _ _ _ Hmax (["("%char] ++ g' ++ [")"%char]) post')
    as [g1' Hk]; [now rewrite <- !app_assoc | exact Hm |].
  simpl in Hk. discriminate.
Qed.

Lemma leftmost_of_NoMatchBefore ic r pre tail :
  NoMatchBefore ic r pre tail ->
  forall pre' m' post', pre ++ tail = pre' ++ m' ++ post' -> Matches ic r m' ->
                        length pre <= length pre'.
Proof.
  intros Hno pre' m' post' E Hm.
  destruct (le_lt_dec (length pre) (length pre')) as [Hle | Hlt]; [assumption|].
  exfalso. apply app_eq_app in E as [l [[E1 E2] | [E1 E2]]].
  - destruct l as [|c l].
    + rewrite app_nil_r in E1. subst. lia.
    + assert (Hne : c :: l <> []) by discriminate.
      exact (Hno pre' (c :: l) E1 Hne m' post' (eq_sym E2) Hm).
  - subst pre'. rewrite length_app in Hlt. lia.
Qed.

Lemma Matches_by_run ic r m g : match_at false ic r m = Some (m, g) -> Matches ic r m.
Proof.
  intros H. now destruct (match_at_sound _ _ _ _ _ _ H) as (rest & _ & Hm & _).
Qed.

(** C5, as stated, fails: of two frames on one line the parser returns the
    call site of the second, since the run after [at] is greedy. *)
Lemma C5_second_frame_of_line :
  parse_file two_frames_on_a_line = lit "b.ts:3:4"
  /\ FrameAt two_frames_on_a_line 6 (lit "a.ts:1:2")
  /\ ~ returns_first_call_site two_frames_on_a_line.
Proof.
  assert (Hp : parse_file two_frames_on_a_line = lit "b.ts:3:4") by reflexivity.
  assert (Hf : FrameAt two_frames_on_a_line 6 (lit "a.ts:1:2")).
  { exists [], (lit " f "), (lit " at g (b.ts:3:4)").
    split; [reflexivity|]. split; [|split; [|reflexivity]].
    - constructor. repeat constructor.
    - now apply (Matches_by_run false re_call_site _ None). }
  split; [exact Hp|]. split; [exact Hf|].
  intros H. destruct (H 6 _ Hf) as (n0 & (pre & mid & post & E & _ & _ & Hn) & Hle).
  rewrite Hp in E. subst n0.
  destruct pre as [|p1 [|p2 [|p3 [|p4 pre]]]];
    destruct mid as [|m1 [|m2 [|m3 [|m4 mid]]]];
    simpl in Hle; try lia; vm_compute in E; congruence.
Qed.

(** C5, amended: the call-site reference is the capture of the leftmost
    match of the frame pattern: no frame begins before it, and of the
    frames that begin with it the one with the longest run before the
    parenthesis is taken, which is the last call site of that line and not
    the first; independently, the test reference is the leftmost
    test-identifier-shaped substring; a field with no match is [unknown]. *)
Theorem C5_stack_frame_parser (ctx : str) :
  (((forall n g, ~ FrameAt ctx n g) /\ parse_file ctx = unknown)
   \/ exists pre mid post,
        ctx = pre ++ frame_text mid (parse_file ctx) ++ post
        /\ Matches false (Star CAny) mid
        /\ Matches false re_call_site (parse_file ctx)
        /\ forall pre' mid' g' post',
             ctx = pre' ++ frame_text mid' g' ++ post' ->
             Matches false (Star CAny) mid' -> Matches false re_call_site g' ->
             length pre < length pre'
             \/ (length pre = length pre' /\ length mid' <= length mid))
  /\
  (((forall pre m post, ctx = pre ++ m ++ post -> ~ Matches false re_test_ref m)
    /\ parse_test ctx = unknown)
   \/ exists pre post,
        ctx = pre ++ parse_test ctx ++ post
        /\ Matches false re_test_ref (parse_test ctx)
        /\ forall pre' m' post',
             ctx = pre' ++ m' ++ post' -> Matches false re_test_ref m' ->
             length pre <= length pre').
Proof.
  split.
  - unfold parse_file, re_search.
    destruct (search_from false re_frame 0 ctx) as [mo|] eqn:E.
    + right. apply search_from_sound in E as (pre & rest & Hctx & _ & _ & Hno & Hat).
      destruct (frame_match_inv _ _ _ Hat)
        as (mid & gtxt & post & Hs & Hm & Hg & Hmid & Hcs & Hmax).
      unfold group1. rewrite Hg. rewrite Hs in Hctx.
      exists pre, mid, post. split; [exact Hctx|]. split; [exact Hmid|]. split; [exact Hcs|].
      intros pre' mid' g' post' E' Hmid' Hg'.
      assert (Hle : length pre <= length pre').
      { apply (leftmost_of_NoMatchBefore false re_frame pre _ Hno pre'
                 (frame_text mid' g') post').
        - rewrite Hs. congruence.
        - now apply frame_text_Matches. }
      destruct (Nat.eq_dec (length pre) (length pre')) as [Heq | Hne]; [right | left; lia].
      split; [assumption|]. rewrite Hctx in E'.
      apply app_eq_app in E' as [l [[E1 E2] | [E1 E2]]].
      * assert (l = [])
          by (destruct l; [reflexivity
                          | subst pre; rewrite length_app in Heq; simpl in Heq; lia]).
        subst l. rewrite app_nil_l in E2.
        apply (Hmax mid' g' post'); [congruence | assumption | assumption].
      * assert (l = [])
          by (destruct l; [reflexivity
                          | subst pre'; rewrite length_app in Heq; simpl in Heq; lia]).
        subst l. rewrite app_nil_l in E2.
        apply (Hmax mid' g' post'); [congruence | assumption | assumption].
    + left. split; [|reflexivity]. apply search_from_none in E.
      intros n g (pre & mid & post & Hctx & Hmid & Hg & _).
      apply (E pre _ Hctx (frame_text mid g) post eq_refl).
      now apply frame_text_Matches.
  - unfold parse_test, re_search.
    destruct (search_from false re_test_ref 0 ctx) as [mo|] eqn:E.
    + right. apply search_from_sound in E as (pre & rest & Hctx & _ & Hm & Hno & _).
      unfold group0. exists pre, rest. split; [exact Hctx|]. split; [exact Hm|].
      intros pre' m' post' E' Hm'.
      apply (leftmost_of_NoMatchBefore false re_test_ref pre _ Hno pre' m' post');
        [congruence | assumption].
    + left. split; [|reflexivity]. apply search_from_none in E.
      intros pre m post Hctx. exact (E pre _ Hctx m post eq_refl).
Qed.

(** ** The origin tally of detailed-analysis.py *)

(** Every match object of the scan is a match at the head of a suffix of
    the text. *)
Lemma scan_In ic r :
  ~ Matches ic r [] ->
  forall n s pos mo, length s <= n -> In mo (scan ic r pos s 0) ->
    exists pre tail,
      s = pre ++ tail /\ match_at false ic r tail = Some (m_text mo, m_cap mo).
Proof.
  intros Hnn. induction n as [|n IH]; intros s pos mo Hlen; rewrite (scan_step _ _ _ _ Hnn).
  - destruct s; [|simpl in Hlen; lia].
    destruct (match_at false ic r []) as [[m g]|] eqn:E; [|contradiction].
    destruct (match_at_sound _ _ _ _ _ _ E) as (rest & Hs & Hm & _).
    symmetry in Hs. apply app_eq_nil in Hs as [-> _]. contradiction.
  - destruct (match_at false ic r s) as [[m g]|] eqn:E.
    + intros [<- | Hin].
      * exists [], s. split; [reflexivity | exact E].
      * destruct (match_at_sound _ _ _ _ _ _ E) as (rest & Hs & Hm & _).
        destruct m as [|c m]; [contradiction|].
        apply IH in Hin as (pre & tail & Hsk & Hat).
        -- exists (firstn (length (c :: m)) s ++ pre), tail. split; [|exact Hat].
           rewrite <- app_assoc, <- Hsk. symmetry. apply firstn_skipn.
        -- rewrite length_skipn. simpl. lia.
    + destruct s as [|c t]; [contradiction|]. intros Hin.
      apply IH in Hin as (pre & tail & -> & Hat); [|simpl in Hlen; lia].
      now exists (c :: pre), tail.
Qed.

(** A pattern without a group hands the capture on as it got it. *)
Lemma rmatch_sound_keep {A} ic r : forall s g (k : str -> cap -> option A) x,
  has_group r = false ->
  rmatch ic r s g k = Some x ->
  exists m s1, s = m ++ s1 /\ Matches ic r m /\ k s1 g = Some x.
Proof.
  induction r as [|cs|r1 IH1 r2 IH2|r1 IH1 r2 IH2|cs|cs|r IH]; simpl; intros s g k x Hg H.
  - exists [], s. auto.
  - destruct s as [|c t]; [discriminate|].
    destruct (cset_match ic cs c) eqn:Hc; [|discriminate].
    exists [c], t. auto.
  - apply orb_false_iff in Hg as [Hg1 Hg2].
    apply IH1 in H as (m1 & s1 & -> & H1 & H); [|assumption].
    apply IH2 in H as (m2 & s2 & -> & H2 & H); [|assumption].
    exists (m1 ++ m2), s2. rewrite <- app_assoc. auto.
  - apply orb_false_iff in Hg as [Hg1 Hg2].
    destruct (rmatch ic r1 s g k) eqn:E.
    + injection H as ->. apply IH1 in E as (m & s1 & -> & H1 & H); eauto 8.
    + apply IH2 in H as (m & s1 & -> & H1 & H); eauto 8.
  - apply star_greedy_sound in H as (m & s1 & -> & Hm & H). eauto 8.
  - apply star_lazy_sound in H as (m & s1 & -> & Hm & H). eauto 8.
  - discriminate.
Qed.

Lemma origin_match_inv (s m : str) (g : cap) :
  match_at false false re_origin s = Some (m, g) ->
  exists mid path line col,
    m = origin_text mid path line col
    /\ g = Some path
    /\ Matches false (Star CAny) mid
    /\ Matches false re_path path
    /\ Matches false (Plus CDigit) line
    /\ Matches false (Plus CDigit) col.
Proof.
  unfold match_at, re_origin. rewrite rmatch_seq. intros H.
  apply rmatch_sound in H as (m1 & s1 & g1 & Hs & Hat & H).
  apply Matches_Lit in Hat. subst m1.
  rewrite rmatch_seq in H.
  apply rmatch_sound in H as (mid & s2 & g2 & -> & Hmid & H).
  rewrite rmatch_seq in H.
  apply rmatch_chr in H as (s3 & -> & H); [|reflexivity].
  cbv beta in H. rewrite rmatch_seq in H.
  apply rmatch_group_sound in H as (path & s4 & -> & Hpath & H).
  cbv beta in H. rewrite rmatch_seq in H.
  apply rmatch_chr in H as (s5 & -> & H); [|reflexivity].
  cbv beta in H. rewrite rmatch_seq in H.
  apply rmatch_sound_keep in H as (line & s6 & -> & Hline & H); [|reflexivity].
  rewrite rmatch_seq in H.
  apply rmatch_chr in H as (s7 & -> & H); [|reflexivity].
  cbv beta in H. rewrite rmatch_seq in H.
  apply rmatch_sound_keep in H as (col & s8 & -> & Hcol & H); [|reflexivity].
  apply rmatch_chr in H as (post & -> & H); [|reflexivity].
  simpl andb in H. cbv iota in H.
  assert (Hs' : s = origin_text mid path line col ++ post).
  { rewrite Hs. unfold origin_text. rewrite <- !app_assoc. reflexivity. }
  rewrite Hs' in H. rewrite firstn_consumed in H. injection H as <- <-.
  exists mid, path, line, col.
  split; [reflexivity|]. split; [reflexivity|]. split; [exact Hmid|].
  split; [exact Hpath|]. split; [exact Hline | exact Hcol].
Qed.

(** C6, as stated, fails.  The tally is filled from the paths that a second
    pattern finds in the snippet, which is the window cut to 500
    characters: a frame after the cut is not tallied at all, and a frame
    before it is tallied by its path, without line and column. *)
Lemma C6_reference_not_tallied :
  (map file (db_config_errors log_long_lines) = [lit "src/database.manager.ts:10:5"]
   /\ origin_files (db_config_errors log_long_lines) = []
   /\ ~ tallies_suspects (db_config_errors log_long_lines))
  /\ (map file (db_config_errors log_one_frame) = [lit "src/database.manager.ts:10:5"]
      /\ origin_counter (db_config_errors log_one_frame) = [(lit "src/database.manager.ts", 1)]
      /\ ~ tallies_suspects (db_config_errors log_one_frame)).
Proof.
  split; (split; [reflexivity|]); (split; [reflexivity|]).
  - intros H.
    assert (Hin : exists e, In e (db_config_errors log_long_lines)
                            /\ contains module_name (file e) = true).
    { vm_compute. eexists. split; [left; reflexivity | reflexivity]. }
    destruct Hin as (e & Hin & Hc). specialize (H e Hin (or_introl Hc)).
    vm_compute in H. lia.
  - intros H.
    assert (Hin : exists e, In e (db_config_errors log_one_frame)
                            /\ contains module_name (file e) = true
                            /\ dict_get (origin_counter (db_config_errors log_one_frame)) (file e) = 0).
    { vm_compute. eexists. split; [left; reflexivity | split; reflexivity]. }
    destruct Hin as (e & Hin & Hc & H0). specialize (H e Hin (or_introl Hc)). lia.
Qed.

(** C6, amended: the origin pattern extracts from the snippet of an
    occurrence the paths of its frames, without line and column; each
    extracted path is tallied when it holds the module name or the snippet
    holds the marker, either alone sufficing, and not otherwise; the tally
    counts how often a path was appended. *)
Theorem C6_origin_tally (errs : list err_info) :
  (forall f, In f (origin_files errs) <->
     exists e, In e errs /\ In f (findall false re_origin (snippet e))
               /\ ((exists a b, f = a ++ module_name ++ b)
                   \/ (exists a b, snippet e = a ++ marker ++ b)))
  /\ (forall e, contains marker (snippet e) = true ->
                origins_of e = findall false re_origin (snippet e))
  /\ (forall e, contains marker (snippet e) = false ->
                origins_of e
                = filter (contains module_name) (findall false re_origin (snippet e)))
  /\ (forall f, dict_get (origin_counter errs) f = count_occ str_dec (origin_files errs) f)
  /\ (forall e f, In f (findall false re_origin (snippet e)) ->
        exists pre mid line col post,
          snippet e = pre ++ origin_text mid f line col ++ post
          /\ Matches false (Star CAny) mid /\ Matches false re_path f
          /\ Matches false (Plus CDigit) line /\ Matches false (Plus CDigit) col).
Proof.
  split; [|split; [|split; [|split]]].
  - intros f. unfold origin_files, origins_of. rewrite in_flat_map. split.
    + intros (e & He & Hf). apply filter_In in Hf as [Hf Hc].
      exists e. split; [assumption|]. split; [assumption|].
      apply orb_true_iff in Hc as [Hc | Hc]; apply contains_spec in Hc; auto.
    + intros (e & He & Hf & Hc). exists e. split; [assumption|].
      apply filter_In. split; [assumption|]. apply orb_true_iff.
      destruct Hc as [Hc | Hc]; apply contains_spec in Hc; auto.
  - intros e Hc. unfold origins_of. rewrite Hc.
    rewrite (filter_ext _ (fun _ => true)) by (intros; apply orb_true_r).
    induction (findall false re_origin (snippet e)) as [|x l IH]; simpl;
      [reflexivity | now rewrite IH].
  - intros e Hc. unfold origins_of. rewrite Hc.
    apply filter_ext. intros; apply orb_false_r.
  - intros f. apply Counter_get.
  - intros e f Hf. unfold findall in Hf.
    change (has_group re_origin) with true in Hf. cbv iota in Hf.
    apply in_map_iff in Hf as (mo & Hg & Hin).
    apply (scan_In false re_origin (not_nullable false re_origin eq_refl)
             (length (snippet e))) in Hin as (pre & tail & Hs & Hat); [|lia].
    destruct (match_at_sound _ _ _ _ _ _ Hat) as (post & Htail & _ & _).
    destruct (origin_match_inv _ _ _ Hat)
      as (mid & path & line & col & Hm & Hcap & Hmid & Hpath & Hline & Hcol).
    unfold group1 in Hg. rewrite Hcap in Hg. subst path.
    exists pre, mid, line, col, post. split; [|auto].
    now rewrite Hs, Htail, Hm.
Qed.

(** * Further properties of the scripts *)

(** ** The lines of the file *)

Lemma readlines_concat s : concat (readlines s) = s.
Proof.
  induction s as [|c t IH]; simpl; [reflexivity|].
  destruct (Ascii.eqb c newline).
  - simpl. now rewrite IH.
  - destruct (readlines t) as [|l ls]; simpl in *.
    + now rewrite <- IH.
    + now rewrite <- IH.
Qed.

Lemma readlines_nil s : readlines s = [] -> s = [].
Proof. intros H. rewrite <- (readlines_concat s), H. reflexivity. Qed.

Lemma full_line_cons c l : c <> newline -> full_line l -> full_line (c :: l).
Proof.
  intros Hc (a & -> & Ha). exists (c :: a). split; [reflexivity|].
  intros [E | E]; [congruence | contradiction].
Qed.

(** All lines but the last end with their newline. *)
Lemma readlines_full s : Forall full_line (removelast (readlines s)).
Proof.
  induction s as [|c t IH]; simpl; [constructor|].
  destruct (Ascii.eqb c newline) eqn:Ec.
  - apply Ascii.eqb_eq in Ec. subst c.
    destruct (readlines t) as [|l ls]; [constructor|].
    constructor; [|exact IH]. exists []. split; [reflexivity | intros []].
  - apply Ascii.eqb_neq in Ec.
    destruct (readlines t) as [|l ls]; [constructor|].
    destruct ls as [|l' ls]; [constructor|].
    inversion IH as [|? ? Hl Hls]; subst.
    constructor; [now apply full_line_cons | exact Hls].
Qed.

(** No line is empty, and a newline can only be the last character. *)
Lemma readlines_shape s :
  Forall (fun l => l <> [] /\ ~ In newline (removelast l)) (readlines s).
Proof.
  induction s as [|c t IH]; simpl; [constructor|].
  destruct (Ascii.eqb c newline) eqn:Ec.
  - constructor; [|exact IH]. split; [discriminate | intros []].
  - apply Ascii.eqb_neq in Ec.
    destruct (readlines t) as [|l ls].
    + constructor; [|constructor]. split; [discriminate | intros []].
    + inversion IH as [|? ? [Hne Hl] Hls]; subst.
      constructor; [|exact Hls]. split; [discriminate|].
      destruct l as [|c' l]; [contradiction|].
      change (removelast (c :: c' :: l)) with (c :: removelast (c' :: l)).
      intros [E | E]; [congruence | contradiction].
Qed.

(** ** Matches stay inside a line *)

Lemma Matches_no_newline ic r m :
  newline_free ic r = true -> Matches ic r m -> ~ In newline m.
Proof.
  intros Hr Hm. induction Hm as [|cs c Hc|r1 r2 m1 m2 H1 IH1 H2 IH2|r1 r2 m H IH|r1 r2 m H IH
                                 |cs m H|cs m H|r m H IH]; simpl in Hr.
  - intros [].
  - intros [E | []]. subst c. rewrite Hc in Hr. discriminate.
  - apply andb_true_iff in Hr as [Hr1 Hr2]. intros Hin.
    apply in_app_or in Hin as [Hin | Hin]; [now apply IH1 | now apply IH2].
  - apply andb_true_iff in Hr as [Hr1 Hr2]. now apply IH.
  - apply andb_true_iff in Hr as [Hr1 Hr2]. now apply IH.
  - intros Hin. apply (proj1 (Forall_forall _ _) H) in Hin. rewrite Hin in Hr. discriminate.
  - intros Hin. apply (proj1 (Forall_forall _ _) H) in Hin. rewrite Hin in Hr. discriminate.
  - now apply IH.
Qed.

Section Barrier.
Context {A : Type}.
Variable ic : bool.
Variable b : str.

Lemma star_greedy_barrier (p : ascii -> bool) (k k' : str -> option A) :
  p newline = false ->
  (forall x', k (x' ++ newline :: b) = k' (x' ++ [newline])) ->
  forall x, star_greedy p (x ++ newline :: b) k = star_greedy p (x ++ [newline]) k'.
Proof.
  intros Hp Hk. induction x as [|c x IH]; simpl.
  - rewrite Hp. apply (Hk []).
  - rewrite IH. destruct (p c); [|apply (Hk (c :: x))].
    destruct (star_greedy p (x ++ [newline]) k'); [reflexivity | apply (Hk (c :: x))].
Qed.

Lemma star_lazy_barrier (p : ascii -> bool) (k k' : str -> option A) :
  p newline = false ->
  (forall x', k (x' ++ newline :: b) = k' (x' ++ [newline])) ->
  forall x, star_lazy p (x ++ newline :: b) k = star_lazy p (x ++ [newline]) k'.
Proof.
  intros Hp Hk. induction x as [|c x IH]; simpl.
  - pose proof (Hk []) as H0. simpl in H0. rewrite H0, Hp.
    now destruct (k' [newline]).
  - pose proof (Hk (c :: x)) as H1. simpl in H1. rewrite H1, IH. reflexivity.
Qed.

Lemma firstn_barrier (x x' : str) :
  firstn (length (x ++ newline :: b) - length (x' ++ newline :: b)) (x ++ newline :: b)
  = firstn (length (x ++ [newline]) - length (x' ++ [newline])) (x ++ [newline]).
Proof.
  rewrite !length_app. simpl.
  replace (length x + S (length b) - (length x' + S (length b)))
    with (length x - length x') by lia.
  replace (length x + 1 - (length x' + 1)) with (length x - length x') by lia.
  rewrite !firstn_app.
  replace (length x - length x' - length x) with 0 by lia. reflexivity.
Qed.

(** What follows the first newline has no part in a match of a pattern that
    refuses the newline. *)
Lemma rmatch_barrier r :
  newline_free ic r = true ->
  forall x g (k k' : str -> cap -> option A),
    (forall x' g', k (x' ++ newline :: b) g' = k' (x' ++ [newline]) g') ->
    rmatch ic r (x ++ newline :: b) g k = rmatch ic r (x ++ [newline]) g k'.
Proof.
  induction r as [|cs|r1 IH1 r2 IH2|r1 IH1 r2 IH2|cs|cs|r IH]; simpl; intros Hr x g k k' Hk.
  - apply Hk.
  - destruct x as [|c x]; simpl.
    + apply negb_true_iff in Hr. now rewrite Hr.
    + destruct (cset_match ic cs c); [apply Hk | reflexivity].
  - apply andb_true_iff in Hr as [Hr1 Hr2].
    apply IH1; [assumption|]. intros x' g'. now apply IH2.
  - apply andb_true_iff in Hr as [Hr1 Hr2].
    rewrite (IH1 Hr1 x g k k' Hk), (IH2 Hr2 x g k k' Hk). reflexivity.
  - apply star_greedy_barrier; [now apply negb_true_iff | intros; apply Hk].
  - apply star_lazy_barrier; [now apply negb_true_iff | intros; apply Hk].
  - apply IH; [assumption|]. intros x' _. rewrite firstn_barrier. apply Hk.
Qed.
End Barrier.

Lemma match_at_barrier ma ic r x b :
  newline_free ic r = true ->
  match_at ma ic r (x ++ newline :: b) = match_at ma ic r (x ++ [newline]).
Proof.
  intros Hr. unfold match_at. apply rmatch_barrier; [assumption|].
  intros x' g'. rewrite firstn_barrier.
  replace (length (x' ++ newline :: b) =? length (x ++ newline :: b))
    with (length (x' ++ [newline]) =? length (x ++ [newline])); [reflexivity|].
  rewrite !length_app. simpl.
  destruct (length x' + 1 =? length x + 1) eqn:E.
  - apply Nat.eqb_eq in E. symmetry. apply Nat.eqb_eq. lia.
  - apply Nat.eqb_neq in E. symmetry. apply Nat.eqb_neq. lia.
Qed.

Lemma match_at_nil ic r : ~ Matches ic r [] -> match_at false ic r [] = None.
Proof.
  intros Hnn. destruct (match_at false ic r []) as [[m g]|] eqn:E; [|reflexivity].
  destruct (match_at_sound _ _ _ _ _ _ E) as (rest & Hs & Hm & _).
  symmetry in Hs. apply app_eq_nil in Hs as [-> _]. contradiction.
Qed.

(** The texts and captures of a scan do not depend on where it starts to
    count positions. *)
Lemma scan_pos_irrelevant {B} (f : mobj -> B) ic r :
  (forall a b, m_text a = m_text b -> m_cap a = m_cap b -> f a = f b) ->
  ~ Matches ic r [] ->
  forall n s pos pos', length s <= n ->
    map f (scan ic r pos s 0) = map f (scan ic r pos' s 0).
Proof.
  intros Hf Hnn. induction n as [|n IH]; intros s pos pos' Hlen;
    rewrite !(scan_step _ _ _ _ Hnn).
  - destruct s; [|simpl in Hlen; lia]. now rewrite match_at_nil.
  - destruct (match_at false ic r s) as [[m g]|] eqn:E.
    + destruct (match_at_sound _ _ _ _ _ _ E) as (rest & Hs & Hm & _).
      assert (Hpos : 0 < length m) by (destruct m; [contradiction | simpl; lia]).
      cbn [map]. f_equal; [now apply Hf|].
      apply IH. rewrite length_skipn. lia.
    + destruct s as [|c t]; [reflexivity|]. apply IH. simpl in Hlen. lia.
Qed.

Lemma app_newline_split (x m rest : str) :
  x ++ [newline] = m ++ rest -> ~ In newline m ->
  exists x', x = m ++ x' /\ rest = x' ++ [newline].
Proof.
  revert x. induction m as [|c m IH]; intros x E Hm; simpl in E.
  - exists x. auto.
  - destruct x as [|c' x]; simpl in E.
    + injection E as <- _. exfalso. apply Hm. now left.
    + injection E as <- E. destruct (IH x E) as (x' & -> & ->).
      * intros H. apply Hm. now right.
      * now exists x'.
Qed.

(** The scan of a text is the scan of its first line followed by the scan
    of the rest. *)
Lemma scan_barrier ic r b :
  newline_free ic r = true -> ~ Matches ic r [] ->
  forall n x pos, length x <= n ->
    scan ic r pos (x ++ newline :: b) 0
    = scan ic r pos (x ++ [newline]) 0 ++ scan ic r (pos + length x + 1) b 0.
Proof.
  intros Hr Hnn.
  assert (Hend : forall pos, scan ic r pos [newline] 0 = []).
  { intros pos. rewrite (scan_step _ _ _ _ Hnn).
    destruct (match_at false ic r [newline]) as [[m g]|] eqn:E.
    - destruct (match_at_sound _ _ _ _ _ _ E) as (rest & Hs & Hm & _).
      destruct m as [|c m]; [contradiction|]. injection Hs as <- _.
      exfalso. apply (Matches_no_newline _ _ _ Hr Hm). now left.
    - rewrite (scan_step _ _ _ _ Hnn), match_at_nil by assumption. reflexivity. }
  assert (Hhead : forall pos, scan ic r pos (newline :: b) 0 = scan ic r (S pos) b 0).
  { intros pos. rewrite (scan_step _ _ _ _ Hnn).
    change (newline :: b) with ([] ++ newline :: b).
    rewrite match_at_barrier by assumption. cbn [app].
    destruct (match_at false ic r [newline]) as [[m g]|] eqn:E; [|reflexivity].
    destruct (match_at_sound _ _ _ _ _ _ E) as (rest & Hs & Hm & _).
    destruct m as [|c m]; [contradiction|]. injection Hs as <- _.
    exfalso. apply (Matches_no_newline _ _ _ Hr Hm). now left. }
  induction n as [|n IH]; intros x pos Hlen.
  - destruct x; [|simpl in Hlen; lia]. cbn [app length].
    rewrite Hend, Hhead. cbn [app]. f_equal. lia.
  - destruct x as [|c x].
    { cbn [app length]. rewrite Hend, Hhead. cbn [app]. f_equal. lia. }
    rewrite (scan_step _ _ _ ((c :: x) ++ newline :: b) Hnn),
            (scan_step _ _ _ ((c :: x) ++ [newline]) Hnn), match_at_barrier by assumption.
    destruct (match_at false ic r ((c :: x) ++ [newline])) as [[m g]|] eqn:E.
    + destruct (match_at_sound _ _ _ _ _ _ E) as (rest & Hs & Hm & _).
      destruct (app_newline_split _ _ _ Hs (Matches_no_newline _ _ _ Hr Hm))
        as (x' & Hx & ->).
      assert (Hpos : 0 < length m) by (destruct m; [contradiction | simpl; lia]).
      rewrite Hx, <- !app_assoc, !skipn_app, !skipn_all, !Nat.sub_diag.
      cbn [skipn app].
      rewrite (IH x') by (rewrite Hx, length_app in Hlen; lia).
      rewrite length_app. cbn [app]. do 3 f_equal. lia.
    + cbn [app]. rewrite (IH x) by (simpl in Hlen; lia).
      cbn [length]. do 2 f_equal. lia.
Qed.

Lemma findall_barrier ic r x b :
  newline_free ic r = true -> nullable r = false ->
  findall ic r (x ++ newline :: b) = findall ic r (x ++ [newline]) ++ findall ic r b.
Proof.
  intros Hr Hn. pose proof (not_nullable ic r Hn) as Hnn. unfold findall.
  rewrite (scan_barrier ic r b Hr Hnn (length x) x 0 (le_n _)), map_app. f_equal.
  apply (scan_pos_irrelevant _ ic r) with (n := length b); [|assumption|lia].
  intros a c Ht Hc. destruct (has_group r); unfold group1, group0;
    [now rewrite Hc | exact Ht].
Qed.

Lemma findall_nil ic r : nullable r = false -> findall ic r [] = [].
Proof.
  intros Hn. unfold findall.
  rewrite (scan_step _ _ _ _ (not_nullable ic r Hn)), match_at_nil; [reflexivity|].
  now apply not_nullable.
Qed.

(** The matches of a text are the matches of its lines. *)
Lemma findall_lines ic r :
  newline_free ic r = true -> nullable r = false ->
  forall lines, Forall full_line (removelast lines) ->
    findall ic r (concat lines) = flat_map (findall ic r) lines.
Proof.
  intros Hr Hn. induction lines as [|l ls IH]; intros H.
  - simpl. now apply findall_nil.
  - destruct ls as [|l' ls].
    + simpl. now rewrite !app_nil_r.
    + change (removelast (l :: l' :: ls)) with (l :: removelast (l' :: ls)) in H.
      inversion H as [|? ? (a & -> & _) Hls]; subst.
      change (concat ((a ++ [newline]) :: l' :: ls))
        with ((a ++ [newline]) ++ concat (l' :: ls)).
      rewrite <- app_assoc.
      change ([newline] ++ concat (l' :: ls)) with (newline :: concat (l' :: ls)).
      rewrite findall_barrier by assumption.
      rewrite (IH Hls). reflexivity.
Qed.

Lemma findall_readlines ic r content :
  newline_free ic r = true -> nullable r = false ->
  findall ic r content = flat_map (findall ic r) (readlines content).
Proof.
  intros Hr Hn. rewrite <- (readlines_concat content) at 1.
  apply findall_lines; [assumption | assumption | apply readlines_full].
Qed.

(** ** The counts of analyze-failures.py, line by line *)

Lemma rules_lines :
  Forall (fun r => newline_free (rule_ic r) (rule_re r) = true
                   /\ nullable (rule_re r) = false) rules.
Proof. repeat constructor. Qed.

(** X1: no pattern of the table, and not the reference pattern, matches
    across a line break: the count of a rule over the text of the file is
    the sum of its counts over the lines of the file, and the references
    of the text are the references of its lines, in order. *)
Theorem X1_counts_line_by_line (content : str) :
  Forall (fun r => count_rule content r
                   = list_sum (map (fun l => count_rule l r) (readlines content)))
         rules
  /\ test_files content = flat_map test_files (readlines content).
Proof.
  split.
  - apply (Forall_impl _ (P := fun r => newline_free (rule_ic r) (rule_re r) = true
                                          /\ nullable (rule_re r) = false));
      [|exact rules_lines].
    intros r [Hr Hn]. unfold count_rule.
    rewrite (findall_readlines _ _ content Hr Hn). apply length_flat_map.
  - unfold test_files. now apply findall_readlines.
Qed.

(** ** How many matches fit into a text *)

Lemma min_len_Matches ic r m : Matches ic r m -> min_len r <= length m.
Proof.
  induction 1; simpl; try lia.
  rewrite length_app. lia.
Qed.

Lemma Scanned_length ic r s ms :
  Scanned ic r s ms -> length ms * min_len r <= length s.
Proof.
  induction 1 as [|c t ms Hno Hs IH|m rest ms Hne Hm Hs IH]; simpl.
  - lia.
  - lia.
  - rewrite length_app. pose proof (min_len_Matches _ _ _ Hm). lia.
Qed.

(** X2: the matches of a rule do not overlap, so the count of a rule times
    the length of the shortest text that its pattern matches is at most the
    length of the text; the phrase of 50 characters is counted at most
    once per 50 characters. *)
Theorem X2_counts_fit (content : str) :
  Forall (fun r => count_rule content r * min_len (rule_re r) <= length content) rules
  /\ count_rule content db_rule * 50 <= length content.
Proof.
  assert (H : Forall (fun r => count_rule content r * min_len (rule_re r)
                               <= length content) rules).
  { apply (Forall_impl _ (P := fun r => newline_free (rule_ic r) (rule_re r) = true
                                          /\ nullable (rule_re r) = false));
      [|exact rules_lines].
    intros r [_ Hn]. unfold count_rule, findall.
    rewrite length_map, <- (length_map group0).
    apply (Scanned_length (rule_ic r)).
    apply (scan_Scanned _ _ (not_nullable _ _ Hn) (length content)). lia. }
  split; [exact H|]. inversion H; subst. assumption.
Qed.

(** ** The size of the report of analyze-failures.py *)

Lemma scan_nil_NoMatchIn ic r :
  ~ Matches ic r [] -> forall s pos, scan ic r pos s 0 = [] -> NoMatchIn ic r s.
Proof.
  intros Hnn. induction s as [|c s IH]; intros pos; rewrite (scan_step _ _ _ _ Hnn).
  - intros _ p1 p2 E. symmetry in E. apply app_eq_nil in E as [_ ->].
    intros m rest E Hm. symmetry in E. apply app_eq_nil in E as [-> _]. contradiction.
  - destruct (match_at false ic r (c :: s)) as [[m g]|] eqn:E; [discriminate|].
    intros H p1 p2 Hp. destruct p1 as [|c' p1]; simpl in Hp.
    + subst p2. now apply match_at_none.
    + injection Hp as _ ->. now apply (IH _ H p1 p2).
Qed.

(** Nothing is found exactly when no match begins anywhere. *)
Lemma findall_nil_iff ic r s :
  nullable r = false -> findall ic r s = [] <-> NoMatchIn ic r s.
Proof.
  intros Hn. pose proof (not_nullable ic r Hn) as Hnn. unfold findall. split.
  - intros H. apply map_eq_nil in H. now apply (scan_nil_NoMatchIn ic r Hnn s 0).
  - intros H. now rewrite scan_nomatch.
Qed.

Lemma Permutation_filter {A} (f : A -> bool) (l l' : list A) :
  Permutation l l' -> Permutation (filter f l) (filter f l').
Proof.
  induction 1 as [|x l l' H IH|x y l|l l' l'' H1 IH1 H2 IH2]; simpl.
  - constructor.
  - destruct (f x); [now constructor | assumption].
  - destruct (f x), (f y); try apply Permutation_refl. apply perm_swap.
  - now transitivity (filter f l').
Qed.

Lemma category_view_length (items : dict) :
  length (category_view items) = length (filter positive items).
Proof.
  unfold category_view. apply Permutation_length, Permutation_filter, py_sorted_perm.
Qed.

Lemma most_common_length n (c : dict) :
  length (most_common n c) = Nat.min n (length c).
Proof.
  unfold most_common. rewrite length_firstn. f_equal.
  apply Permutation_length, py_sorted_perm.
Qed.

Lemma filter_length_le {A} (f : A -> bool) l : length (filter f l) <= length l.
Proof. induction l as [|x l IH]; simpl; [lia|]. destruct (f x); simpl; lia. Qed.

Lemma report_length (content : str) :
  length (AnalyzeFailures.report content)
  = 5 + length (filter positive (error_patterns content))
    + Nat.min 10 (length (nodup str_dec (test_files content))).
Proof.
  unfold AnalyzeFailures.report. rewrite !length_app, !length_map.
  rewrite category_view_length, most_common_length.
  unfold test_file_counts. rewrite Counter_length. cbn [length].
  generalize (length (filter positive (error_patterns content))).
  generalize (Nat.min 10 (length (nodup str_dec (test_files content)))).
  intros a b. lia.
Qed.

Lemma filter_nil_iff {A} (f : A -> bool) l :
  filter f l = [] <-> Forall (fun x => f x = false) l.
Proof.
  induction l as [|x l IH]; simpl.
  - split; constructor.
  - destruct (f x) eqn:E; split.
    + discriminate.
    + intros H. inversion H; subst. congruence.
    + intros H. constructor; [assumption | now apply IH].
    + intros H. inversion H; subst. now apply IH.
Qed.

(** X4: analyze-failures.py prints nothing but its five fixed lines, with
    a total of 0, exactly when no pattern of the table and no reference
    matches anywhere in the text; the empty file is such a text. *)
Theorem X4_quiet_report (content : str) :
  (AnalyzeFailures.report content = quiet_report
   <-> Forall (fun r => NoMatchIn (rule_ic r) (rule_re r) content) rules
       /\ NoMatchIn false re_test_file content)
  /\ AnalyzeFailures.report [] = quiet_report.
Proof.
  split; [|reflexivity].
  assert (Hcat : filter positive (error_patterns content) = []
                 <-> Forall (fun r => NoMatchIn (rule_ic r) (rule_re r) content) rules).
  { rewrite filter_nil_iff. unfold error_patterns. rewrite Forall_map.
    pose proof rules_lines as Hr. rewrite !Forall_forall in *. split.
    - intros H r Hin. destruct (Hr r Hin) as [_ Hn]. specialize (H r Hin).
      unfold positive, count_rule in H. simpl in H. apply Nat.ltb_ge in H.
      apply (findall_nil_iff _ _ _ Hn). destruct (findall _ _ _); [reflexivity|].
      simpl in H. lia.
    - intros H r Hin. destruct (Hr r Hin) as [_ Hn]. specialize (H r Hin).
      apply (findall_nil_iff _ _ _ Hn) in H.
      unfold positive, count_rule. simpl. now rewrite H. }
  assert (Htok : test_files content = [] <-> NoMatchIn false re_test_file content)
    by (now apply findall_nil_iff).
  pose proof (report_length content) as Hlen.
  split.
  - intros H. rewrite H in Hlen. change (length quiet_report) with 5 in Hlen.
    assert (Hc : length (filter positive (error_patterns content)) = 0) by lia.
    assert (Ht : length (nodup str_dec (test_files content)) = 0) by lia.
    split.
    + apply Hcat. now apply length_zero_iff_nil.
    + apply Htok. apply length_zero_iff_nil in Ht.
      destruct (test_files content) as [|x l]; [reflexivity|].
      exfalso. assert (Hin : In x (nodup str_dec (x :: l))) by (apply nodup_In; now left).
      rewrite Ht in Hin. contradiction.
  - intros [Hc Ht]. apply Hcat in Hc. apply Htok in Ht.
    unfold AnalyzeFailures.report, test_file_counts. rewrite Ht.
    assert (Hv : category_view (error_patterns content) = []).
    { apply length_zero_iff_nil. rewrite category_view_length, Hc. reflexivity. }
    rewrite Hv. reflexivity.
Qed.

(** ** Counting under [re.IGNORECASE] *)

(** Under [re.IGNORECASE] the matcher does not tell a character from
    another one with the same folding: the matcher on a text recased by
    [f], which keeps the folding of every character, runs as on the text. *)
Section Recased.
Variable f : ascii -> ascii.
Hypothesis f_fold : forall c, lower (f c) = lower c.

Lemma cset_match_recase cs c : cset_match true cs (f c) = cset_match true cs c.
Proof. apply cset_match_fold, f_fold. Qed.

Section Continuations.
Context {A B : Type}.
Variable F : A -> B.

Lemma star_greedy_recase (p : ascii -> bool) (k : str -> option B) (k' : str -> option A) :
  (forall c, p (f c) = p c) ->
  (forall s1, k (map f s1) = option_map F (k' s1)) ->
  forall s, star_greedy p (map f s) k = option_map F (star_greedy p s k').
Proof.
  intros Hp Hk. induction s as [|c s IH]; simpl.
  - apply (Hk []).
  - rewrite Hp, IH. destruct (p c); [|apply (Hk (c :: s))].
    destruct (star_greedy p s k'); [reflexivity | apply (Hk (c :: s))].
Qed.

Lemma star_lazy_recase (p : ascii -> bool) (k : str -> option B) (k' : str -> option A) :
  (forall c, p (f c) = p c) ->
  (forall s1, k (map f s1) = option_map F (k' s1)) ->
  forall s, star_lazy p (map f s) k = option_map F (star_lazy p s k').
Proof.
  intros Hp Hk. induction s as [|c s IH]; simpl.
  - pose proof (Hk []) as H0. simpl in H0. rewrite H0. now destruct (k' []).
  - pose proof (Hk (c :: s)) as H1. simpl in H1. rewrite H1, Hp.
    destruct (k' (c :: s)); [reflexivity|]. simpl.
    destruct (p c); [apply IH | reflexivity].
Qed.

Lemma rmatch_recase r :
  forall s g (k : str -> cap -> option B) (k' : str -> cap -> option A),
    (forall s1 g1, k (map f s1) (option_map (map f) g1) = option_map F (k' s1 g1)) ->
    rmatch true r (map f s) (option_map (map f) g) k
    = option_map F (rmatch true r s g k').
Proof.
  induction r as [|cs|r1 IH1 r2 IH2|r1 IH1 r2 IH2|cs|cs|r IH]; simpl; intros s g k k' Hk.
  - apply Hk.
  - destruct s as [|c t]; simpl; [reflexivity|].
    rewrite cset_match_recase. destruct (cset_match true cs c); [apply Hk | reflexivity].
  - apply IH1. intros s1 g1. now apply IH2.
  - rewrite (IH1 s g k k' Hk), (IH2 s g k k' Hk).
    now destruct (rmatch true r1 s g k').
  - apply star_greedy_recase; [apply cset_match_recase | intros; apply Hk].
  - apply star_lazy_recase; [apply cset_match_recase | intros; apply Hk].
  - apply IH. intros s1 _. rewrite !length_map, firstn_map.
    apply (Hk s1 (Some (firstn (length s - length s1) s))).
Qed.
End Continuations.

Lemma match_at_recase ma r s :
  match_at ma true r (map f s)
  = option_map (fun x => (map f (fst x), option_map (map f) (snd x)))
               (match_at ma true r s).
Proof.
  unfold match_at. change (@None str) with (option_map (map f) (@None str)) at 1.
  apply rmatch_recase. intros s1 g1. rewrite !length_map, firstn_map.
  now destruct (ma && (length s1 =? length s)).
Qed.

Lemma scan_recase r :
  ~ Matches true r [] ->
  forall n s pos, length s <= n ->
    scan true r pos (map f s) 0 = map (recase_mobj f) (scan true r pos s 0).
Proof.
  intros Hnn. induction n as [|n IH]; intros s pos Hlen;
    rewrite !(scan_step _ _ _ _ Hnn), match_at_recase.
  - destruct s; [|simpl in Hlen; lia]. now rewrite match_at_nil.
  - destruct (match_at false true r s) as [[m g]|] eqn:E; cbn [option_map fst snd].
    + destruct (match_at_sound _ _ _ _ _ _ E) as (rest & Hs & Hm & _).
      assert (Hpos : 0 < length m) by (destruct m; [contradiction | simpl; lia]).
      cbn [map]. f_equal. rewrite length_map, skipn_map.
      apply IH. rewrite length_skipn. lia.
    + destruct s as [|c t]; [reflexivity|]. cbn [map]. apply IH. simpl in Hlen. lia.
Qed.

Lemma findall_recase r s :
  nullable r = false ->
  findall true r (map f s) = map (map f) (findall true r s).
Proof.
  intros Hn. unfold findall.
  rewrite (scan_recase r (not_nullable true r Hn) (length s)) by lia.
  rewrite !map_map. apply map_ext. intros m.
  destruct (has_group r); unfold group1, group0, recase_mobj; simpl;
    [now destruct (m_cap m) | reflexivity].
Qed.
End Recased.

Lemma ascii_lower_fold c : lower (ascii_lower c) = lower c.
Proof. destruct c as [[] [] [] [] [] [] [] []]; reflexivity. Qed.

(** X5: a rule that is counted with [re.IGNORECASE] does not see the case
    of the ASCII letters: in the log whose ASCII capital letters are put in
    lower case, all other characters kept, it finds the matches of the log,
    with their ASCII capitals in lower case, so that the counts of the
    [Timeout] and [Health Check Failed] rules are those of the log. *)
Theorem X5_counts_ignore_case (content : str) :
  Forall (fun r => rule_ic r = true ->
                   findall true (rule_re r) (map ascii_lower content)
                   = map (map ascii_lower) (findall true (rule_re r) content)
                   /\ count_rule (map ascii_lower content) r = count_rule content r)
         rules.
Proof.
  apply (Forall_impl _ (P := fun r => newline_free (rule_ic r) (rule_re r) = true
                                        /\ nullable (rule_re r) = false));
    [|exact rules_lines].
  intros r [_ Hn] Hic. unfold count_rule. rewrite Hic.
  rewrite (findall_recase ascii_lower ascii_lower_fold _ content Hn).
  split; [reflexivity | apply length_map].
Qed.

Lemma X5_counts_ignore_case_witness :
  count_rule (map ascii_lower (lit "Timed OUT, timeout")) (nth 2 rules db_rule)
  = count_rule (lit "Timed OUT, timeout") (nth 2 rules db_rule).
Proof.
  pose proof (X5_counts_ignore_case (lit "Timed OUT, timeout")) as H.
  rewrite Forall_forall in H.
  exact (proj2 (H (nth 2 rules db_rule)
                  (or_intror (or_intror (or_introl eq_refl))) eq_refl)).
Defined.

(** ** The references that analyze-failures.py finds *)

(** Every member of [re.findall] is the text of a match at the head of a
    suffix of the text, for a pattern without a group. *)
Lemma findall_In ic r s t :
  has_group r = false -> nullable r = false -> In t (findall ic r s) ->
  exists pre rest, s = pre ++ t ++ rest /\ Matches ic r t.
Proof.
  intros Hg Hn Hin. unfold findall in Hin. rewrite Hg in Hin.
  apply in_map_iff in Hin as (mo & <- & Hin).
  apply (scan_In ic r (not_nullable ic r Hn) (length s)) in Hin
    as (pre & tail & -> & Hat); [|lia].
  destruct (match_at_sound _ _ _ _ _ _ Hat) as (rest & -> & Hm & _).
  now exists pre, rest.
Qed.

Lemma Matches_Seq_inv ic r1 r2 m :
  Matches ic (Seq r1 r2) m ->
  exists m1 m2, m = m1 ++ m2 /\ Matches ic r1 m1 /\ Matches ic r2 m2.
Proof. inversion 1; subst. eauto. Qed.

Lemma Matches_Plus ic cs m :
  Matches ic (Plus cs) m ->
  m <> [] /\ Forall (fun c => cset_match ic cs c = true) m.
Proof.
  unfold Plus. inversion 1 as [| |r1 r2 m1 m2 H1 H2| | | | |]; subst.
  inversion H1; subst. inversion H2; subst.
  split; [discriminate | now constructor].
Qed.

(** X6: every reference that analyze-failures.py tallies is a part of the
    text that begins with [test/], ends with [.spec.ts] and has a
    non-empty run without white space between the two. *)
Theorem X6_reference_shape (content t : str) :
  In t (test_files content) ->
  exists run,
    t = lit "test/" ++ run ++ lit ".spec.ts"
    /\ run <> []
    /\ Forall (fun c => is_space c = false) run
    /\ exists pre rest, content = pre ++ t ++ rest.
Proof.
  intros Hin. unfold test_files in Hin.
  apply findall_In in Hin as (pre & rest & Hc & Hm); [|reflexivity|reflexivity].
  unfold re_test_file in Hm.
  apply Matches_Seq_inv in Hm as (m1 & m2 & Ht & H1 & H2).
  apply Matches_Lit in H1. subst m1.
  apply Matches_Seq_inv in H2 as (run & m3 & -> & H3 & H4).
  apply Matches_Lit in H4. subst m3.
  apply Matches_Plus in H3 as [Hne Hrun].
  exists run. split; [exact Ht|]. split; [assumption|]. split; [|eauto].
  revert Hrun. apply Forall_impl. intros c Hcs. simpl in Hcs.
  now apply negb_true_iff in Hcs.
Qed.

Lemma X6_reference_shape_witness :
  exists run, lit "test/a.spec.ts" = lit "test/" ++ run ++ lit ".spec.ts" /\ run <> [].
Proof.
  destruct (X6_reference_shape (lit "FAIL test/a.spec.ts (2 s)") (lit "test/a.spec.ts"))
    as (run & H1 & H2 & _); [vm_compute; auto|].
  exists run. auto.
Defined.

(** ** Counters hold what was counted *)

Lemma counter_add_sum k d :
  list_sum (map snd (counter_add k d)) = S (list_sum (map snd d)).
Proof.
  induction d as [|[k' n] d IH]; simpl; [reflexivity|].
  destruct (str_eqb k k'); simpl; [reflexivity|]. rewrite IH. lia.
Qed.

Lemma counter_add_positive k d :
  Forall (fun x => 0 < snd x) d -> Forall (fun x => 0 < snd x) (counter_add k d).
Proof.
  induction d as [|[k' n] d IH]; simpl; intros H.
  - repeat constructor.
  - inversion H; subst. destruct (str_eqb k k'); constructor; simpl in *; auto; lia.
Qed.

Lemma fold_counter_sum : forall l d,
  list_sum (map snd (fold_left (fun d k => counter_add k d) l d))
  = list_sum (map snd d) + length l.
Proof.
  induction l as [|x l IH]; intros d; simpl; [lia|].
  rewrite IH, counter_add_sum. lia.
Qed.

Lemma fold_counter_positive : forall l d,
  Forall (fun x => 0 < snd x) d ->
  Forall (fun x => 0 < snd x) (fold_left (fun d k => counter_add k d) l d).
Proof.
  induction l as [|x l IH]; intros d H; simpl; [assumption|].
  apply IH. now apply counter_add_positive.
Qed.

Lemma Counter_sum l : list_sum (map snd (Counter l)) = length l.
Proof. unfold Counter. now rewrite fold_counter_sum. Qed.

Lemma Counter_positive l : Forall (fun x => 0 < snd x) (Counter l).
Proof. unfold Counter. apply fold_counter_positive. constructor. Qed.

(** X7: the mention tally of analyze-failures.py holds every reference
    found: its counts add up to the number of references, no key has the
    count 0, no key appears twice, and a string is a key exactly when it
    was found. *)
Theorem X7_mention_tally_complete (content : str) :
  let tally := test_file_counts content in
  list_sum (map snd tally) = length (test_files content)
  /\ Forall (fun x => 0 < snd x) tally
  /\ NoDup (keys tally)
  /\ forall k, In k (keys tally) <-> In k (test_files content).
Proof.
  intros tally. unfold tally, test_file_counts.
  split; [apply Counter_sum|]. split; [apply Counter_positive|].
  split; [apply Counter_keys_NoDup|].
  intros k. rewrite Counter_keys. split.
  - apply first_per_key_In.
  - intros H. destruct (first_per_key_covers same str_eqb str_eqb_eq k _ H)
      as (y & Hy & E). unfold same in E. now subst.
Qed.

(** ** The occurrences that detailed-analysis.py collects *)

Lemma collect_In lines : forall rest i e,
  In e (collect lines rest i) <->
  exists j line, nth_error rest j = Some line /\ contains phrase line = true
                 /\ e = info lines (i + j).
Proof.
  induction rest as [|l rest IH]; intros i e; simpl.
  - split; [tauto|]. intros (j & line & H & _). destruct j; discriminate.
  - rewrite in_app_iff, IH. split.
    + intros [H | (j & line & Hn & Hc & ->)].
      * destruct (contains phrase l) eqn:Hc; [|contradiction].
        destruct H as [<- | []]. exists 0, l. rewrite Nat.add_0_r. auto.
      * exists (S j), line. repeat split; auto; f_equal; lia.
    + intros (j & line & Hn & Hc & ->). destruct j as [|j]; simpl in Hn.
      * injection Hn as ->. rewrite Hc. left. left. now rewrite Nat.add_0_r.
      * right. exists j, line. repeat split; auto; f_equal; lia.
Qed.

Lemma collect_length lines : forall rest i,
  length (collect lines rest i) = length (filter (contains phrase) rest).
Proof.
  induction rest as [|l rest IH]; intros i; simpl; [reflexivity|].
  rewrite length_app, IH. now destruct (contains phrase l).
Qed.

(** X8: detailed-analysis.py collects one occurrence for each line that
    holds the phrase, and no other: the occurrences are those of the lines
    of index [i] with the phrase, numbered [i + 1], in the order of the
    lines. *)
Theorem X8_occurrences (lines : list str) :
  (forall e, In e (db_config_errors lines) <->
     exists i line, nth_error lines i = Some line
                    /\ (exists a b, line = a ++ phrase ++ b)
                    /\ e = info lines i)
  /\ length (db_config_errors lines) = length (filter (contains phrase) lines)
  /\ StronglySorted lt (map line_num (db_config_errors lines))
  /\ Forall (fun e => 1 <= line_num e <= length lines) (db_config_errors lines).
Proof.
  unfold db_config_errors. split; [|split; [|split]].
  - intros e. rewrite collect_In. split.
    + intros (j & line & Hn & Hc & ->). exists j, line.
      apply contains_spec in Hc. auto.
    + intros (j & line & Hn & Hc & ->). exists j, line.
      apply contains_spec in Hc. auto.
  - apply collect_length.
  - apply collect_line_nums.
  - pose proof (collect_bounds lines lines 0) as H. revert H.
    apply Forall_impl. intros e. lia.
Qed.

(** ** The window of an occurrence *)

Lemma skipn_nth_error {A} (l : list A) i x :
  nth_error l i = Some x -> skipn i l = x :: skipn (S i) l.
Proof.
  revert l. induction i as [|i IH]; intros [|y l] H; try discriminate; simpl in *.
  - now injection H as ->.
  - now apply IH.
Qed.

Lemma firstn_cap {A} (l : list A) n m : length l <= m -> firstn (Nat.min m n) l = firstn n l.
Proof.
  intros H. destruct (le_lt_dec n m) as [Hle | Hlt].
  - now rewrite Nat.min_r.
  - rewrite Nat.min_l by lia. rewrite !firstn_all2 by lia. reflexivity.
Qed.

Lemma window_lines (lines : list str) i line :
  nth_error lines i = Some line ->
  py_slice lines (context_start (Z.of_nat i))
           (context_end (Z.of_nat (length lines)) (Z.of_nat i))
  = firstn (Nat.min i 5) (skipn (i - 5) lines) ++ line :: firstn 9 (skipn (S i) lines).
Proof.
  intros Hn.
  assert (Hi : i < length lines) by (apply nth_error_Some; congruence).
  destruct (py_slice_inside lines (context_start (Z.of_nat i))
              (context_end (Z.of_nat (length lines)) (Z.of_nat i))) as [-> _];
    [unfold context_start, context_end; lia .. |].
  replace (Z.to_nat (context_start (Z.of_nat i))) with (i - 5)
    by (unfold context_start; lia).
  replace (Z.to_nat (context_end (Z.of_nat (length lines)) (Z.of_nat i)
                     - context_start (Z.of_nat i)))
    with (Nat.min i 5 + S (Nat.min (length lines - S i) 9))
    by (unfold context_start, context_end; lia).
  rewrite <- (firstn_skipn (Nat.min i 5) (skipn (i - 5) lines)) at 1.
  rewrite skipn_skipn.
  replace (Nat.min i 5 + (i - 5)) with i by lia.
  rewrite (skipn_nth_error _ _ _ Hn).
  rewrite firstn_app, length_firstn, length_skipn.
  replace (Nat.min i 5 + S (Nat.min (length lines - S i) 9)
           - Nat.min (Nat.min i 5) (length lines - (i - 5)))
    with (S (Nat.min (length lines - S i) 9)) by lia.
  rewrite firstn_firstn.
  replace (Nat.min (Nat.min i 5 + S (Nat.min (length lines - S i) 9)) (Nat.min i 5))
    with (Nat.min i 5) by lia.
  f_equal. rewrite firstn_cons. f_equal.
  apply firstn_cap. rewrite length_skipn. lia.
Qed.

(** X9: the window of the line of index [i] is made of the lines of the
    document from five before it to nine after it, as far as they exist,
    joined; it holds the line itself, and with it the phrase. *)
Theorem X9_window_content (lines : list str) (i : nat) (line : str) :
  nth_error lines i = Some line ->
  context lines (Z.of_nat i)
  = concat (firstn (Nat.min i 5) (skipn (i - 5) lines))
    ++ line ++ concat (firstn 9 (skipn (S i) lines))
  /\ (contains phrase line = true -> contains phrase (context lines (Z.of_nat i)) = true).
Proof.
  intros Hn.
  assert (H : context lines (Z.of_nat i)
              = concat (firstn (Nat.min i 5) (skipn (i - 5) lines))
                ++ line ++ concat (firstn 9 (skipn (S i) lines))).
  { unfold context. rewrite (window_lines lines i line Hn), concat_app. reflexivity. }
  split; [exact H|]. intros Hc. rewrite H.
  apply contains_spec in Hc as (a & b & ->). apply contains_spec.
  exists (concat (firstn (Nat.min i 5) (skipn (i - 5) lines)) ++ a),
         (b ++ concat (firstn 9 (skipn (S i) lines))).
  now rewrite <- !app_assoc.
Qed.

Lemma X9_window_content_witness :
  context [lit "a"; lit "b"; lit "c"] 1 = lit "abc".
Proof.
  exact (proj1 (X9_window_content [lit "a"; lit "b"; lit "c"] 1 (lit "b") eq_refl)).
Defined.

(** ** The fields of an occurrence *)

Lemma parse_file_shape ctx :
  parse_file ctx = unknown
  \/ exists path line col,
       parse_file ctx = path ++ lit ".ts:" ++ line ++ [":"%char] ++ col
       /\ Matches false (LazyStar CAny) path
       /\ Matches false (Plus CDigit) line
       /\ Matches false (Plus CDigit) col.
Proof.
  unfold parse_file, re_search.
  destruct (search_from false re_frame 0 ctx) as [mo|] eqn:E; [right | now left].
  apply search_from_sound in E as (pre & rest & _ & _ & _ & _ & Hat).
  destruct (frame_match_inv _ _ _ Hat) as (mid & g & post & _ & _ & Hg & _ & Hcs & _).
  unfold group1. rewrite Hg. unfold re_call_site in Hcs.
  apply Matches_Seq_inv in Hcs as (path & m2 & -> & Hpath & H2).
  apply Matches_Seq_inv in H2 as (m3 & m4 & -> & H3 & H4).
  apply Matches_Lit in H3. subst m3.
  apply Matches_Seq_inv in H4 as (line & m5 & -> & Hline & H5).
  apply Matches_Seq_inv in H5 as (m6 & col & -> & H6 & Hcol).
  inversion H6 as [|cs c Hc| | | | | |]; subst. simpl in Hc.
  apply Ascii.eqb_eq in Hc. subst c.
  exists path, line, col. auto.
Qed.

Lemma parse_test_shape ctx :
  parse_test ctx = unknown
  \/ exists run line,
       parse_test ctx = lit "test/" ++ run ++ lit ".spec.ts:" ++ line
       /\ Matches false (Plus CNotSpace) run
       /\ Matches false (Plus CDigit) line.
Proof.
  unfold parse_test, re_search.
  destruct (search_from false re_test_ref 0 ctx) as [mo|] eqn:E; [right | now left].
  apply search_from_sound in E as (pre & rest & _ & _ & Hm & _ & _).
  unfold group0. unfold re_test_ref in Hm.
  apply Matches_Seq_inv in Hm as (m1 & m2 & -> & H1 & H2).
  apply Matches_Lit in H1. subst m1.
  apply Matches_Seq_inv in H2 as (run & m3 & -> & Hrun & H3).
  apply Matches_Seq_inv in H3 as (m4 & line & -> & H4 & Hline).
  apply Matches_Lit in H4. subst m4.
  exists run, line. auto.
Qed.

Lemma digits_spec m :
  Matches false (Plus CDigit) m -> m <> [] /\ Forall (fun c => is_digit c = true) m.
Proof. apply Matches_Plus. Qed.

(** X10: in every occurrence the [file] field is [unknown] or a text
    without line break that ends with [.ts:], a line number, a colon and a
    column number; the [test] field is [unknown] or [test/], a run without
    white space, [.spec.ts:] and a line number; the snippet has at most 500
    characters. *)
Theorem X10_occurrence_fields (lines : list str) :
  Forall (fun e =>
            (file e = unknown
             \/ exists path line col,
                  file e = path ++ lit ".ts:" ++ line ++ [":"%char] ++ col
                  /\ ~ In newline path
                  /\ line <> [] /\ Forall (fun c => is_digit c = true) line
                  /\ col <> [] /\ Forall (fun c => is_digit c = true) col)
            /\ (test e = unknown
                \/ exists run line,
                     test e = lit "test/" ++ run ++ lit ".spec.ts:" ++ line
                     /\ run <> [] /\ Forall (fun c => is_space c = false) run
                     /\ line <> [] /\ Forall (fun c => is_digit c = true) line)
            /\ length (snippet e) <= 500)
         (db_config_errors lines).
Proof.
  apply Forall_forall. intros e He. unfold db_config_errors in He.
  apply collect_In in He as (j & l & _ & _ & ->).
  unfold info. cbn [file test snippet]. split; [|split].
  - destruct (parse_file_shape (context lines (Z.of_nat j)))
      as [H | (path & line & col & H & Hp & Hl & Hc)]; [now left | right].
    apply digits_spec in Hl as [Hl1 Hl2]. apply digits_spec in Hc as [Hc1 Hc2].
    exists path, line, col. repeat split; auto.
    now apply (Matches_no_newline false (LazyStar CAny)).
  - destruct (parse_test_shape (context lines (Z.of_nat j)))
      as [H | (run & line & H & Hr & Hl)]; [now left | right].
    apply digits_spec in Hl as [Hl1 Hl2]. apply Matches_Plus in Hr as [Hr1 Hr2].
    exists run, line. repeat split; auto.
    revert Hr2. apply Forall_impl. intros c Hc. simpl in Hc.
    now apply negb_true_iff in Hc.
  - apply firstn_le_length.
Qed.

(** ** The order of the summary *)

Lemma filter_other_key_id {A K} (key : A -> K) (eqb : K -> K -> bool) x :
  (forall a b, eqb a b = true <-> a = b) ->
  forall l, ~ In (key x) (map key l) -> filter (other_key key eqb x) l = l.
Proof.
  intros Heq. induction l as [|y l IH]; simpl; intros Hn; [reflexivity|].
  unfold other_key at 1. destruct (eqb (key x) (key y)) eqn:E; simpl.
  - apply Heq in E. exfalso. apply Hn. left. congruence.
  - f_equal. apply IH. intros Hin. apply Hn. now right.
Qed.

Lemma first_per_key_id {A K} (key : A -> K) (eqb : K -> K -> bool) :
  (forall a b, eqb a b = true <-> a = b) ->
  forall l, NoDup (map key l) -> first_per_key key eqb l = l.
Proof.
  intros Heq. induction l as [|x l IH]; simpl; intros H; [reflexivity|].
  inversion H as [|? ? Hn Hd]; subst. rewrite (IH Hd). f_equal.
  now apply filter_other_key_id.
Qed.

Lemma StronglySorted_map_filter {A B} (R : B -> B -> Prop) (f : A -> B) g l :
  StronglySorted R (map f l) -> StronglySorted R (map f (filter g l)).
Proof.
  induction l as [|x l IH]; simpl; intros H; [constructor|].
  inversion H as [|? ? Hs Hx]; subst.
  destruct (g x); simpl; [|now apply IH].
  constructor; [now apply IH|].
  apply Forall_forall. intros y Hy. apply in_map_iff in Hy as (z & <- & Hz).
  apply filter_In in Hz as [Hz _].
  apply (proj1 (Forall_forall _ _) Hx). now apply in_map.
Qed.

Lemma StronglySorted_map_first_per_key {A B K} (R : B -> B -> Prop) (f : A -> B)
      (key : A -> K) eqb l :
  StronglySorted R (map f l) -> StronglySorted R (map f (first_per_key key eqb l)).
Proof.
  induction l as [|x l IH]; simpl; intros H; [constructor|].
  inversion H as [|? ? Hs Hx]; subst.
  constructor; [now apply StronglySorted_map_filter, IH|].
  apply Forall_forall. intros y Hy. apply in_map_iff in Hy as (z & <- & Hz).
  apply filter_In in Hz as [Hz _]. apply first_per_key_In in Hz.
  apply (proj1 (Forall_forall _ _) Hx). now apply in_map.
Qed.

Lemma StronglySorted_map_firstn {A B} (R : B -> B -> Prop) (f : A -> B) n l :
  StronglySorted R (map f l) -> StronglySorted R (map f (firstn n l)).
Proof.
  intros H. rewrite <- firstn_map. now apply StronglySorted_firstn.
Qed.

(** X11: the summary begins with the first occurrence, and is empty only
    when there is none; its entries are printed by growing line number. *)
Theorem X11_summary_order :
  (forall e errs, exists rest, summary (e :: errs) = e :: rest)
  /\ (forall errs, summary errs = [] <-> errs = [])
  /\ (forall lines,
        StronglySorted lt (map line_num (summary (db_config_errors lines)))).
Proof.
  assert (H1 : forall e errs, exists rest, summary (e :: errs) = e :: rest).
  { intros e errs. rewrite summary_spec. simpl. eauto. }
  split; [exact H1|]. split.
  - intros errs. split; [|intros ->; reflexivity].
    destruct errs as [|e errs]; [reflexivity|].
    destruct (H1 e errs) as [rest ->]. discriminate.
  - intros lines. rewrite summary_spec.
    apply StronglySorted_map_firstn, StronglySorted_map_first_per_key,
          StronglySorted_map_firstn.
    apply collect_line_nums.
Qed.

(** X12: the summary of a summary is the summary: its entries have
    pairwise distinct pairs and are at most 5, so that nothing is removed
    the second time. *)
Theorem X12_summary_idempotent (errs : list err_info) :
  summary (summary errs) = summary errs.
Proof.
  rewrite (summary_spec (summary errs)).
  assert (Hlen : length (summary errs) <= 5)
    by (rewrite summary_spec; apply firstn_le_length).
  assert (Hnd : NoDup (map err_key (summary errs))).
  { rewrite summary_spec, <- firstn_map. apply NoDup_firstn.
    apply (first_per_key_NoDup err_key key_eqb key_eqb_spec). }
  rewrite (firstn_all2 (n := 20)) by lia.
  rewrite (first_per_key_id err_key key_eqb key_eqb_spec _ Hnd).
  apply firstn_all2. exact Hlen.
Qed.

(** ** The origin tally *)





Lemma most_common_ranked n (c : dict) :
  exists ranked,
    most_common n c = firstn n ranked
    /\ Permutation ranked c
    /\ StronglySorted count_ge ranked
    /\ forall k, filter (with_count k) ranked = filter (with_count k) c.
Proof.
  set (cnt := fun x : str * nat => Z.of_nat (snd x)).
  exists (py_sorted cnt true c). split; [reflexivity|]. split; [apply py_sorted_perm|].
  split.
  - apply (StronglySorted_impl (key_ge cnt)); [|apply py_sorted_desc].
    unfold key_ge, cnt, count_ge. intros a b. lia.
  - intros k.
    assert (Hk : forall l : dict,
               filter (with_count k) l = filter (has_key cnt (Z.of_nat k)) l).
    { intros l. apply filter_ext. intros x. unfold has_key, cnt, with_count.
      destruct (snd x =? k) eqn:E.
      - apply Nat.eqb_eq in E. rewrite E. symmetry. apply Z.eqb_refl.
      - apply Nat.eqb_neq in E. symmetry. apply Z.eqb_neq. lia. }
    rewrite !Hk. apply py_sorted_stable.
Qed.

(** X14: the origin tally counts every appended path: its counts add up
    to the number of paths appended, the count of a path is the number of
    times it was appended, and the listing holds the at most five paths
    with the highest counts, in descending order, paths with one count in
    the order in which they were first appended. *)
Theorem X14_origin_ranking (errs : list err_info) :
  let tally := origin_counter errs in
  let top := most_common 5 tally in
  list_sum (map snd tally) = length (origin_files errs)
  /\ (forall f, dict_get tally f = count_occ str_dec (origin_files errs) f)
  /\ keys tally = first_per_key same str_eqb (origin_files errs)
  /\ length top = Nat.min 5 (length tally)
  /\ exists ranked,
       top = firstn 5 ranked
       /\ Permutation ranked tally
       /\ StronglySorted count_ge ranked
       /\ forall k, filter (with_count k) ranked = filter (with_count k) tally.
Proof.
  intros tally top. unfold top, tally, origin_counter.
  split; [apply Counter_sum|]. split; [intros f; apply Counter_get|].
  split; [apply Counter_keys|]. split; [apply most_common_length|].
  apply most_common_ranked.
Qed.

(** ** A log without the phrase *)

Lemma db_config_errors_nil lines :
  db_config_errors lines = [] <-> Forall (fun l => contains phrase l = false) lines.
Proof.
  rewrite <- filter_nil_iff, <- !length_zero_iff_nil.
  unfold db_config_errors. now rewrite collect_length.
Qed.

(** X15: detailed-analysis.py prints nothing but its four fixed lines
    exactly when no line of the log holds the phrase. *)
Theorem X15_quiet_locations (lines : list str) :
  DetailedAnalysis.report lines = quiet_locations
  <-> Forall (fun l => contains phrase l = false) lines.
Proof.
  rewrite <- db_config_errors_nil. unfold DetailedAnalysis.report. split.
  - intros H. apply (f_equal (@length str)) in H.
    rewrite !length_app in H. change (length quiet_locations) with 4 in H.
    cbn [length] in H.
    destruct (db_config_errors lines) as [|e errs]; [reflexivity|].
    exfalso. rewrite summary_spec in H. cbn [firstn first_per_key flat_map] in H.
    rewrite length_app in H. cbn [summary_lines length] in H. lia.
  - intros ->. reflexivity.
Qed.

(** ** The two scripts on one file *)

Lemma contains_count l : contains phrase l = true <-> 0 < count_rule l db_rule.
Proof.
  unfold count_rule. simpl rule_ic. simpl rule_re. split.
  - intros H. apply contains_spec in H as (a & b & ->).
    destruct (findall false re_db_config (a ++ phrase ++ b)) eqn:E; [|simpl; lia].
    exfalso. apply findall_nil_iff in E; [|reflexivity].
    apply (E a (phrase ++ b) eq_refl phrase b eq_refl). now apply Matches_Lit.
  - intros H. destruct (contains phrase l) eqn:E; [reflexivity|].
    apply occurs_after in E. apply findall_nil_iff in E; [|reflexivity].
    unfold re_db_config in H. rewrite E in H. simpl in H. lia.
Qed.

Lemma filter_length_sum {A} (f : A -> bool) (g : A -> nat) l :
  (forall x, f x = true <-> 0 < g x) ->
  length (filter f l) <= list_sum (map g l)
  /\ (Forall (fun x => g x <= 1) l -> length (filter f l) = list_sum (map g l)).
Proof.
  intros Hfg. induction l as [|x l [IH1 IH2]]; simpl; [split; auto|].
  destruct (f x) eqn:E.
  - apply Hfg in E. simpl. split; [lia|].
    intros H. inversion H; subst. rewrite (IH2 H3). lia.
  - assert (g x = 0).
    { destruct (g x) eqn:Eg; [reflexivity|].
      assert (f x = true) by (apply Hfg; lia). congruence. }
    split; [lia|]. intros H'. inversion H'; subst. rewrite (IH2 H3). lia.
Qed.

(** X16: on one file, detailed-analysis.py collects an occurrence for
    each line with the phrase and analyze-failures.py counts each phrase:
    the occurrences are at most as many as the count of the rule
    [Database Config Missing], and as many when no line holds the phrase
    twice. *)
Theorem X16_occurrences_and_count (content : str) :
  length (db_config_errors (readlines content)) <= count_rule content db_rule
  /\ (Forall (fun l => count_rule l db_rule <= 1) (readlines content) ->
      length (db_config_errors (readlines content)) = count_rule content db_rule).
Proof.
  assert (Hc : count_rule content db_rule
               = list_sum (map (fun l => count_rule l db_rule) (readlines content))).
  { unfold count_rule. simpl rule_ic. simpl rule_re.
    rewrite (findall_readlines false re_db_config content eq_refl eq_refl).
    apply length_flat_map. }
  rewrite Hc. unfold db_config_errors. rewrite collect_length.
  apply filter_length_sum. apply contains_count.
Qed.

Lemma X16_occurrences_and_count_witness :
  length (db_config_errors (readlines (phrase ++ [newline] ++ phrase)))
  = count_rule (phrase ++ [newline] ++ phrase) db_rule.
Proof.
  apply (proj2 (X16_occurrences_and_count (phrase ++ [newline] ++ phrase))).
  rewrite Forall_forall. intros l Hl. vm_compute in Hl.
  destruct Hl as [<-|[<-|[]]]; vm_compute; lia.
Defined.

(** ** What an occurrence holds is text of the file *)

Lemma py_slice_part {A} (l : list A) (a b : Z) :
  exists pre post, l = pre ++ py_slice l a b ++ post.
Proof.
  unfold py_slice.
  set (k := Z.to_nat (clamp_index (Z.of_nat (length l)) a)).
  set (n := Z.to_nat (clamp_index (Z.of_nat (length l)) b
                      - clamp_index (Z.of_nat (length l)) a)).
  exists (firstn k l), (skipn n (skipn k l)).
  now rewrite firstn_skipn, firstn_skipn.
Qed.

Lemma context_part (lines : list str) (i : Z) :
  exists pre post, concat lines = pre ++ context lines i ++ post.
Proof.
  unfold context.
  destruct (py_slice_part lines (context_start i)
              (context_end (Z.of_nat (length lines)) i)) as (pre & post & H).
  exists (concat pre), (concat post). rewrite H at 1. now rewrite !concat_app.
Qed.

(** X17: nothing in an occurrence is made up.  Its snippet is the beginning
    of the window of its line; its [file] and [test] fields are [unknown]
    or parts of that window; and the window is a part of the lines of the
    document joined, the text as it was read. *)
Theorem X17_fields_from_lines (lines : list str) :
  Forall (fun e =>
            let ctx := context lines (Z.of_nat (line_num e) - 1) in
            (exists post, ctx = snippet e ++ post)
            /\ (file e = unknown \/ exists pre post, ctx = pre ++ file e ++ post)
            /\ (test e = unknown \/ exists pre post, ctx = pre ++ test e ++ post)
            /\ exists pre post, concat lines = pre ++ ctx ++ post)
         (db_config_errors lines).
Proof.
  apply Forall_forall. intros e He. unfold db_config_errors in He.
  apply collect_In in He as (j & l & _ & _ & ->).
  unfold info. cbn [line_num file test snippet Nat.add].
  replace (Z.of_nat (j + 1) - 1)%Z with (Z.of_nat j) by lia.
  cbv zeta. set (ctx := context lines (Z.of_nat j)).
  split; [|split; [|split]].
  - exists (skipn 500 ctx). now rewrite firstn_skipn.
  - unfold parse_file, re_search.
    destruct (search_from false re_frame 0 ctx) as [mo|] eqn:E; [right | now left].
    apply search_from_sound in E as (pre & rest & Hctx & _ & _ & _ & Hat).
    destruct (frame_match_inv _ _ _ Hat) as (mid & g & post & Hs & _ & Hg & _).
    unfold group1. rewrite Hg.
    exists (pre ++ lit "at" ++ mid ++ ["("%char]), ([")"%char] ++ post).
    rewrite Hctx, Hs. unfold frame_text. now rewrite <- !app_assoc.
  - unfold parse_test, re_search.
    destruct (search_from false re_test_ref 0 ctx) as [mo|] eqn:E; [right | now left].
    apply search_from_sound in E as (pre & rest & Hctx & _).
    unfold group0. exists pre, rest. exact Hctx.
  - apply context_part.
Qed.

(** ** References are as long as they can be *)

Lemma findall_In_at ic r s t :
  has_group r = false -> nullable r = false -> In t (findall ic r s) ->
  exists pre rest g,
    s = pre ++ t ++ rest /\ match_at false ic r (t ++ rest) = Some (t, g).
Proof.
  intros Hg Hn Hin. unfold findall in Hin. rewrite Hg in Hin.
  apply in_map_iff in Hin as (mo & <- & Hin).
  apply (scan_In ic r (not_nullable ic r Hn) (length s)) in Hin
    as (pre & tail & -> & Hat); [|lia].
  destruct (match_at_sound _ _ _ _ _ _ Hat) as (rest & -> & _).
  exists pre, rest, (m_cap mo). auto.
Qed.

Lemma rmatch_cset {A} ic cs s g (k : str -> cap -> option A) x :
  rmatch ic (Chr cs) s g k = Some x ->
  exists c s1, s = c :: s1 /\ cset_match ic cs c = true /\ k s1 g = Some x.
Proof.
  simpl. destruct s as [|c t]; [discriminate|].
  destruct (cset_match ic cs c) eqn:E; [|discriminate]. eauto.
Qed.

(** A match of the reference pattern at the head of [s] is the longest
    text of the language there. *)
Lemma test_file_match_longest (s m : str) (g : cap) :
  match_at false false re_test_file s = Some (m, g) ->
  forall m' rest', s = m' ++ rest' -> Matches false re_test_file m' ->
                   length m' <= length m.
Proof.
  intros H0. destruct (match_at_sound _ _ _ _ _ _ H0) as (rest & Hs0 & Hm0 & _).
  revert H0. unfold match_at, re_test_file. rewrite rmatch_seq. intros H.
  apply rmatch_sound_keep in H as (m1 & s1 & Hs & Hat & H); [|reflexivity].
  apply Matches_Lit in Hat. subst m1.
  rewrite rmatch_seq in H. unfold Plus in H. rewrite rmatch_seq in H.
  apply rmatch_cset in H as (c & s2 & -> & Hc & H).
  cbv beta in H. rewrite rmatch_star in H.
  apply star_greedy_longest in H as (run & s3 & -> & Hrun & H & Hmax).
  cbv beta in H, Hmax.
  apply rmatch_sound_keep in H as (m4 & post & -> & H4 & H); [|reflexivity].
  apply Matches_Lit in H4. subst m4.
  simpl andb in H. cbv iota in H.
  assert (Hs' : s = (lit "test/" ++ c :: run ++ lit ".spec.ts") ++ post).
  { rewrite Hs. now rewrite <- app_assoc, <- app_comm_cons, <- app_assoc. }
  rewrite Hs' in H. rewrite firstn_consumed in H. injection H as <- _.
  intros m' rest' E Hm'. unfold re_test_file in Hm'.
  apply Matches_Seq_inv in Hm' as (m1 & m2 & -> & H1 & H2).
  apply Matches_Lit in H1. subst m1.
  apply Matches_Seq_inv in H2 as (run' & m3 & -> & H3 & H5).
  apply Matches_Lit in H5. subst m3.
  unfold Plus in H3. apply Matches_Seq_inv in H3 as (c1 & run1 & -> & Hc1 & Hr1).
  inversion Hc1 as [|cs c' Hc'| | | | | |]; subst.
  inversion Hr1 as [| | | | |cs r' Hall| |]; subst.
  rewrite Hs in E. rewrite <- !app_assoc in E. apply app_inv_head in E.
  simpl in E. injection E as <- E.
  destruct (le_lt_dec (length run1) (length run)) as [Hle | Hlt].
  - rewrite !length_app. simpl. rewrite !length_app. simpl. lia.
  - exfalso. specialize (Hmax run1 _ E Hall Hlt).
    destruct (rmatch_complete false _ _ _ _ Hmax (lit ".spec.ts") rest' eq_refl)
      as [g1 Hk]; [now apply Matches_Lit|].
    simpl in Hk. discriminate.
Qed.

(** X18: a reference is taken as long as it can be: every reference
    found is a part of the text, and no longer text that the reference
    pattern matches begins at the place where it was found. *)
Theorem X18_reference_longest (content t : str) :
  In t (test_files content) ->
  exists pre rest,
    content = pre ++ t ++ rest
    /\ forall t' rest', t ++ rest = t' ++ rest' -> Matches false re_test_file t' ->
                        length t' <= length t.
Proof.
  intros Hin. unfold test_files in Hin.
  apply findall_In_at in Hin as (pre & rest & g & Hc & Hat); [|reflexivity|reflexivity].
  exists pre, rest. split; [exact Hc|].
  now apply (test_file_match_longest _ _ _ Hat).
Qed.

Lemma X18_reference_longest_witness :
  exists pre rest,
    lit "see test/a.spec.ts,test/b.spec.ts now"
    = pre ++ lit "test/a.spec.ts,test/b.spec.ts" ++ rest.
Proof.
  destruct (X18_reference_longest (lit "see test/a.spec.ts,test/b.spec.ts now")
              (lit "test/a.spec.ts,test/b.spec.ts")) as (pre & rest & H & _);
    [vm_compute; auto|].
  now exists pre, rest.
Defined.

(** ** The scripts on the text of the file *)

Lemma contains_lines content :
  contains phrase content = false
  <-> Forall (fun l => contains phrase l = false) (readlines content).
Proof.
  assert (Hc : count_rule content db_rule
               = list_sum (map (fun l => count_rule l db_rule) (readlines content))).
  { unfold count_rule. simpl rule_ic. simpl rule_re.
    rewrite (findall_readlines false re_db_config content eq_refl eq_refl).
    apply length_flat_map. }
  assert (Hz : forall l, contains phrase l = false <-> count_rule l db_rule = 0).
  { intros l. pose proof (contains_count l) as H.
    destruct (contains phrase l); split; intros H'; try reflexivity; try discriminate.
    - assert (0 < count_rule l db_rule) by now apply H. lia.
    - destruct (count_rule l db_rule) eqn:E; [reflexivity|].
      assert (false = true) by (apply H; lia). discriminate. }
  rewrite Hz, Hc. clear Hc. induction (readlines content) as [|l ls IH]; simpl.
  - split; constructor.
  - split.
    + intros H. constructor; [apply Hz; lia | apply IH; lia].
    + intros H. inversion H as [|? ? Hl Hls]; subst.
      apply Hz in Hl. apply IH in Hls. lia.
Qed.

(** X19: on the text of a file, detailed-analysis.py prints nothing but
    its four fixed lines exactly when the phrase is not in the text, which
    is exactly when analyze-failures.py counts 0 for the rule
    [Database Config Missing]. *)
Theorem X19_phrase_or_quiet (content : str) :
  (DetailedAnalysis.main content = quiet_locations
   <-> contains phrase content = false)
  /\ (dict_get (error_patterns content) (lit "Database Config Missing") = 0
      <-> contains phrase content = false).
Proof.
  split.
  - unfold DetailedAnalysis.main. rewrite contains_lines.
    unfold DetailedAnalysis.report.
    rewrite <- db_config_errors_nil. split.
    + intros H. apply (f_equal (@length str)) in H.
      rewrite !length_app in H. change (length quiet_locations) with 4 in H.
      cbn [length] in H.
      destruct (db_config_errors (readlines content)) as [|e errs]; [reflexivity|].
      exfalso. rewrite summary_spec in H. cbn [firstn first_per_key flat_map] in H.
      rewrite length_app in H. cbn [summary_lines length] in H. lia.
    + intros ->. reflexivity.
  - change (dict_get (error_patterns content) (lit "Database Config Missing"))
      with (count_rule content db_rule).
    pose proof (contains_count content) as H.
    destruct (contains phrase content); split; intros H'; try reflexivity; try discriminate.
    + assert (0 < count_rule content db_rule) by now apply H. lia.
    + destruct (count_rule content db_rule) eqn:E; [reflexivity|].
      assert (false = true) by (apply H; lia). discriminate.
Qed.

(** ** The lines of the standard output *)

Lemma line_count_app a b : line_count (a ++ b) = line_count a + line_count b.
Proof. apply count_occ_app. Qed.

Lemma line_count_none s : ~ In newline s -> line_count s = 0.
Proof. apply count_occ_not_In. Qed.

Lemma stdout_app l1 l2 : stdout (l1 ++ l2) = stdout l1 ++ stdout l2.
Proof. apply flat_map_app. Qed.

Lemma line_count_stdout l :
  line_count (stdout l) = list_sum (map (fun s => S (line_count s)) l).
Proof.
  induction l as [|s l IH]; [reflexivity|].
  change (stdout (s :: l)) with ((s ++ [newline]) ++ stdout l).
  rewrite !line_count_app, IH. change (line_count [newline]) with 1.
  change (map (fun s0 => S (line_count s0)) (s :: l))
    with (S (line_count s) :: map (fun s0 => S (line_count s0)) l).
  change (list_sum (S (line_count s) :: map (fun s0 => S (line_count s0)) l))
    with (S (line_count s) + list_sum (map (fun s0 => S (line_count s0)) l)).
  lia.
Qed.

(** Strings without line break are printed on one line each. *)
Lemma line_count_plain l :
  Forall (fun s => line_count s = 0) l -> line_count (stdout l) = length l.
Proof.
  intros H. rewrite line_count_stdout.
  induction H as [|s l Hs _ IH]; [reflexivity|].
  simpl. rewrite Hs. simpl. f_equal. exact IH.
Qed.

Lemma line_count_flat_map {A} (g : A -> list str) n l :
  Forall (fun x => line_count (stdout (g x)) = n) l ->
  line_count (stdout (flat_map g l)) = n * length l.
Proof.
  induction 1 as [|x l Hx _ IH]; [cbn [length]; now rewrite Nat.mul_0_r|].
  cbn [flat_map length]. rewrite stdout_app, line_count_app, Hx, IH. lia.
Qed.

Lemma uint_line d : line_count (lit (NilEmpty.string_of_uint d)) = 0.
Proof.
  induction d as [|d IH|d IH|d IH|d IH|d IH|d IH|d IH|d IH|d IH|d IH];
    [reflexivity | ..];
    cbn [NilEmpty.string_of_uint]; unfold lit; cbn [list_ascii_of_string];
    unfold line_count; (rewrite count_occ_cons_neq by discriminate); exact IH.
Qed.

Lemma show_nat_line n : line_count (show_nat n) = 0.
Proof. apply uint_line. Qed.

Lemma category_lines_plain content :
  Forall (fun s => line_count s = 0)
         (map category_line (category_view (error_patterns content))).
Proof.
  apply Forall_forall. intros s Hs.
  apply in_map_iff in Hs as (x & <- & Hx).
  apply category_view_In in Hx as [Hx _].
  unfold category_line. rewrite !line_count_app, show_nat_line.
  assert (Hn : line_count (fst x) = 0).
  { unfold error_patterns in Hx. apply in_map_iff in Hx as (r & <- & Hr).
    cbn [fst]. repeat (destruct Hr as [<- | Hr]; [reflexivity|]). destruct Hr. }
  rewrite Hn. reflexivity.
Qed.

Lemma reference_line content t : In t (test_files content) -> line_count t = 0.
Proof.
  intros Ht. unfold test_files in Ht.
  apply findall_In in Ht as (pre & rest & _ & Hm); [|reflexivity|reflexivity].
  apply line_count_none. revert Hm. now apply Matches_no_newline.
Qed.

Lemma mention_lines_plain content :
  Forall (fun s => line_count s = 0)
         (map mention_line (most_common 10 (test_file_counts content))).
Proof.
  apply Forall_forall. intros s Hs.
  apply in_map_iff in Hs as (x & <- & Hx).
  unfold most_common in Hx. apply In_firstn in Hx.
  apply (Permutation_in _ (py_sorted_perm _ _ _)) in Hx.
  assert (Hk : In (fst x) (keys (test_file_counts content))) by now apply in_map.
  unfold test_file_counts in Hk. rewrite Counter_keys in Hk.
  apply first_per_key_In in Hk.
  unfold mention_line. rewrite !line_count_app, show_nat_line.
  rewrite (reference_line content (fst x) Hk). reflexivity.
Qed.

Lemma report_lines (content : str) :
  line_count (stdout (AnalyzeFailures.report content))
  = 7 + length (filter positive (error_patterns content))
    + Nat.min 10 (length (nodup str_dec (test_files content))).
Proof.
  unfold AnalyzeFailures.report. rewrite !stdout_app, !line_count_app.
  rewrite (line_count_plain _ (category_lines_plain content)).
  rewrite (line_count_plain _ (mention_lines_plain content)).
  rewrite !length_map, category_view_length, most_common_length.
  unfold test_file_counts at 1. rewrite Counter_length.
  rewrite !line_count_stdout. cbn [map list_sum fold_right].
  change (newline :: lit "Total unique test files: "
            ++ show_nat (length (test_file_counts content)))
    with ((newline :: lit "Total unique test files: ")
            ++ show_nat (length (test_file_counts content))).
  rewrite line_count_app, show_nat_line.
  change (line_count (lit "Error Pattern Analysis:")) with 0.
  change (line_count rule_line) with 0.
  change (line_count (newline :: lit "Most Mentioned Test Files:")) with 1.
  change (line_count (newline :: lit "Total unique test files: ")) with 1.
  unfold positive.
  generalize (length (filter (fun x : str * nat => 0 <? snd x) (error_patterns content))).
  generalize (Nat.min 10 (length (nodup str_dec (test_files content)))).
  intros a b. lia.
Qed.

(** X3: on the standard output, where [print] ends each string with a
    line break, analyze-failures.py writes 7 lines that are always there
    (the two headings with their rulers and the total, the second heading
    and the total each after an empty line), one line for each rule with a
    positive count and one line for each of the ten most mentioned distinct
    references: between 7 and 22 lines. *)
Theorem X3_report_size (content : str) :
  line_count (stdout (AnalyzeFailures.report content))
  = 7 + length (filter positive (error_patterns content))
    + Nat.min 10 (length (nodup str_dec (test_files content)))
  /\ 7 <= line_count (stdout (AnalyzeFailures.report content)) <= 22.
Proof.
  pose proof (report_lines content) as H.
  split; [exact H|]. rewrite H.
  pose proof (filter_length_le positive (error_patterns content)) as Hf.
  unfold error_patterns in Hf at 2. rewrite length_map in Hf.
  change (length rules) with 5 in Hf. lia.
Qed.

Lemma file_line lines e : In e (db_config_errors lines) -> line_count (file e) = 0.
Proof.
  intros He. unfold db_config_errors in He.
  apply collect_In in He as (j & l & _ & _ & ->).
  unfold info. cbn [file].
  destruct (parse_file_shape (context lines (Z.of_nat (0 + j))))
    as [-> | (path & line & col & -> & Hp & Hl & Hc)]; [reflexivity|].
  rewrite !line_count_app.
  rewrite (line_count_none path), (line_count_none line), (line_count_none col);
    [reflexivity | ..].
  - revert Hc. now apply Matches_no_newline.
  - revert Hl. now apply Matches_no_newline.
  - revert Hp. now apply Matches_no_newline.
Qed.

Lemma test_line lines e : In e (db_config_errors lines) -> line_count (test e) = 0.
Proof.
  intros He. unfold db_config_errors in He.
  apply collect_In in He as (j & l & _ & _ & ->).
  unfold info. cbn [test].
  destruct (parse_test_shape (context lines (Z.of_nat (0 + j))))
    as [-> | (run & line & -> & Hr & Hl)]; [reflexivity|].
  rewrite !line_count_app.
  rewrite (line_count_none run), (line_count_none line); [reflexivity | ..].
  - revert Hl. now apply Matches_no_newline.
  - revert Hr. now apply Matches_no_newline.
Qed.

(** An entry of the summary takes four lines: an empty one, the file, the
    test and the line number. *)
Lemma summary_lines_count lines e :
  In e (db_config_errors lines) -> line_count (stdout (summary_lines e)) = 4.
Proof.
  intros He. unfold summary_lines, stdout. cbn [flat_map].
  change (newline :: lit "File: " ++ file e) with ((newline :: lit "File: ") ++ file e).
  rewrite !line_count_app, show_nat_line, (file_line lines e He), (test_line lines e He).
  reflexivity.
Qed.

Lemma origin_lines_count (top : dict) :
  line_count (stdout (map origin_line top))
  = list_sum (map (fun x => S (line_count (fst x))) top).
Proof.
  rewrite line_count_stdout, map_map. f_equal. apply map_ext. intros x.
  unfold origin_line. rewrite !line_count_app, show_nat_line.
  change (line_count (lit ": ")) with 0. change (line_count (lit " times")) with 0.
  now rewrite !Nat.add_0_r.
Qed.

Lemma list_sum_succ_ge {A} (g : A -> nat) l :
  length l <= list_sum (map (fun x => S (g x)) l)
  /\ (Forall (fun x => g x = 0) l -> list_sum (map (fun x => S (g x)) l) = length l).
Proof.
  induction l as [|x l [IH1 IH2]]; simpl; [split; [lia | reflexivity]|].
  split; [lia|]. intros H. inversion H as [|? ? Hx Hl]; subst.
  rewrite Hx, (IH2 Hl). reflexivity.
Qed.

Lemma locations_lines (lines : list str) :
  line_count (stdout (DetailedAnalysis.report lines))
  = 6 + 4 * length (summary (db_config_errors lines))
    + list_sum (map (fun x => S (line_count (fst x)))
                    (most_common 5 (origin_counter (db_config_errors lines)))).
Proof.
  unfold DetailedAnalysis.report. cbv zeta.
  rewrite !stdout_app, !line_count_app, origin_lines_count.
  rewrite (line_count_flat_map summary_lines 4).
  - generalize (length (summary (db_config_errors lines))).
    generalize (list_sum (map (fun x : str * nat => S (line_count (fst x)))
                              (most_common 5 (origin_counter (db_config_errors lines))))).
    intros a b.
    change (line_count (stdout [lit "Database Config Error Locations:"; repeat "="%char 70]))
      with 2.
    change (line_count (stdout [newline :: newline :: lit "Error Origin Analysis:";
                                repeat "="%char 70]))
      with 4.
    lia.
  - apply Forall_forall. intros e He. apply (summary_lines_count lines).
    apply summary_In, In_firstn in He. exact He.
Qed.

(** X20: on the standard output detailed-analysis.py writes 6 lines that
    are always there (the two headings with their rulers, the second
    heading after two empty lines), four lines for each entry of the
    summary (an empty one, the file, the test, the line number) and, for
    each of the at most five most frequent origin paths, one line and one
    more for each line break inside the path: at least 6 lines, and at most
    31 when no origin path holds a line break. *)
Theorem X20_locations_size (lines : list str) :
  let errs := db_config_errors lines in
  let top := most_common 5 (origin_counter errs) in
  let n := line_count (stdout (DetailedAnalysis.report lines)) in
  n = 6 + 4 * length (summary errs)
      + list_sum (map (fun x => S (line_count (fst x))) top)
  /\ 6 + 4 * length (summary errs) + length top <= n
  /\ (Forall (fun f => line_count f = 0) (origin_files errs) ->
      n = 6 + 4 * length (summary errs)
          + Nat.min 5 (length (nodup str_dec (origin_files errs)))
      /\ n <= 31).
Proof.
  intros errs top n.
  assert (Hn : n = 6 + 4 * length (summary errs)
                   + list_sum (map (fun x => S (line_count (fst x))) top))
    by apply locations_lines.
  destruct (list_sum_succ_ge (fun x : str * nat => line_count (fst x)) top) as [Hge Heq].
  split; [exact Hn|]. split; [lia|].
  intros Hplain.
  assert (Htop : length top = Nat.min 5 (length (nodup str_dec (origin_files errs)))).
  { unfold top. rewrite most_common_length. unfold origin_counter.
    now rewrite Counter_length. }
  assert (Hs : length (summary errs) <= 5).
  { rewrite summary_spec. apply firstn_le_length. }
  rewrite Heq in Hn.
  - rewrite <- Htop. split; [exact Hn | lia].
  - apply Forall_forall. intros x Hx. unfold top, most_common in Hx.
    apply In_firstn in Hx.
    apply (Permutation_in _ (py_sorted_perm _ _ _)) in Hx.
    assert (Hk : In (fst x) (keys (origin_counter errs))) by now apply in_map.
    unfold origin_counter in Hk. rewrite Counter_keys in Hk.
    apply first_per_key_In in Hk.
    apply (proj1 (Forall_forall _ _) Hplain). exact Hk.
Qed.

Lemma X20_locations_size_witness :
  line_count (stdout (DetailedAnalysis.report log_one_frame)) <= 31.
Proof.
  destruct (X20_locations_size log_one_frame) as (_ & _ & H).
  destruct H as [_ H]; [|exact H].
  vm_compute. repeat constructor.
Defined.
